(** * The AVM Merkle-tree trace builder

    A shallow embedding of
    [barretenberg/vm/avm/trace/gadgets/merkle_tree.cpp]:
    [compute_root_from_path], [check_membership], [update_leaf_index] and
    [finalize] of [AvmMerkleTreeTraceBuilder], followed by the properties the
    specification states about them. *)

From Stdlib Require Import ZArith List Lia Bool.
From Stdlib Require QArith Qcanon.
Import ListNotations.

Open Scope Z_scope.

(** ** Machine integers

    [uint32_t] and [size_t] values are integers reduced modulo [2^32] and
    [2^64] (a 64-bit target); every operation of the source that can wrap
    is written with its reduction. *)

Definition to_uint32 (z : Z) : Z := z mod 2 ^ 32.

Definition to_size_t (z : Z) : Z := z mod 2 ^ 64.

(** [x << n] on a [uint32_t]. *)
Definition shl32 (x n : Z) : Z := to_uint32 (Z.shiftl x n).

(** [x + y] on two [uint32_t]. *)
Definition add32 (x y : Z) : Z := to_uint32 (x + y).

(** [x >> 1] on a [uint32_t] (no reduction is needed, the value shrinks). *)
Definition shr1 (x : Z) : Z := Z.shiftr x 1.

(** [x % 2 == 0]. *)
Definition is_even (x : Z) : bool := x mod 2 =? 0.

(** ** The field element type

    Modelled from the spec: the field element type [FF], whose declaration is
    not among the sources.  It offers zero, one, subtraction, multiplication,
    equality, the conversion from an unsigned machine integer and a
    multiplicative inverse that is defined on nonzero elements only:
    [FF_invert] answers [None] where the source's [invert()] is fatal. *)
Class FieldElement : Type := {
  FF : Type;
  FF_zero : FF;
  FF_one : FF;
  FF_sub : FF -> FF -> FF;
  FF_mul : FF -> FF -> FF;
  FF_eq_dec : forall x y : FF, {x = y} + {x <> y};
  FF_of_uint : Z -> FF;
  FF_invert : FF -> option FF
}.

(** Modelled from the spec: the laws of the field the code relies on, those
    of a commutative ring with an inverse on its nonzero elements.  The
    field of the source is a prime field of 254 bits, hence the last law but
    two: no unsigned 64-bit integer other than 0 converts to the zero
    element. *)
Class FieldLaws (F : FieldElement) : Prop := {
  FF_sub_zero_iff : forall x y : FF, FF_sub x y = FF_zero <-> x = y;
  FF_mul_zero_r : forall x : FF, FF_mul x FF_zero = FF_zero;
  FF_one_neq_zero : FF_one <> FF_zero;
  FF_of_uint_zero : FF_of_uint 0 = FF_zero;
  FF_of_uint_nonzero : forall n : Z, 0 < n < 2 ^ 64 -> FF_of_uint n <> FF_zero;
  FF_invert_zero : FF_invert FF_zero = None;
  FF_invert_nonzero :
    forall x : FF, x <> FF_zero ->
    exists y : FF, FF_invert x = Some y /\ FF_mul x y = FF_one
}.

(** [b ? FF::one() : FF::zero()]. *)
Definition FF_of_bool {F : FieldElement} (b : bool) : FF :=
  if b then FF_one else FF_zero.

(** [x == y] on field elements. *)
Definition FF_eqb {F : FieldElement} (x y : FF) : bool :=
  if FF_eq_dec x y then true else false.

(** ** Vectors

    A [std::vector<T>] is a list.  [v[i]] is [vec_at d v i]; the source
    only indexes below the vector's size (the loops stop at [path_length],
    and a logged entry has that many [path_values]), so the default [d] is
    never returned. *)
Definition vec_at {A : Type} (d : A) (v : list A) (i : Z) : A :=
  nth (Z.to_nat i) v d.

(** The row [n] of [v] replaced by [x]; [v] is returned as it is when [n]
    is not a position of [v]. *)
Fixpoint vec_set {A : Type} (v : list A) (n : nat) (x : A) : list A :=
  match v, n with
  | [], _ => []
  | _ :: t, O => x :: t
  | h :: t, S n' => h :: vec_set t n' x
  end.

(** [static_cast<uint32_t>(v.size())]. *)
Definition size32 {A : Type} (v : list A) : Z :=
  to_uint32 (Z.of_nat (length v)).

(** A vector whose size survives the cast to [uint32_t]. *)
Definition fits_uint32 {A : Type} (v : list A) : Prop :=
  Z.of_nat (length v) < 2 ^ 32.

Section MerkleTree.

Context {F : FieldElement}.

(** Modelled from the spec: the hash gadget, a deterministic function of two
    field elements and a domain identifier.  Its builder, which is not among
    the sources, keeps one event per invocation. *)
Variable hash : FF -> FF -> Z -> FF.

Record Poseidon2Event : Type := {
  p2_left : FF;
  p2_right : FF;
  p2_clk : Z;
  p2_output : FF
}.

Definition poseidon2_hash (events : list Poseidon2Event) (l r : FF) (clk : Z)
  : FF * list Poseidon2Event :=
  let out := hash l r clk in
  (out, events ++ [{| p2_left := l; p2_right := r; p2_clk := clk;
                      p2_output := out |}]).

(** ** Data model *)

(** Modelled from the spec: the declaration of [MerkleEntry] is in the
    header, which is not among the sources.  Its fields are the ones the
    source assigns; the three flags, which the initialiser of
    [compute_root_from_path] does not name, start [false] and are raised by
    the operation that records the entry. *)
Record MerkleEntry : Type := {
  clk : Z;
  leaf_value : FF;
  leaf_index : Z;
  path : list FF;
  path_bits : list bool;
  path_values : list FF;
  root : FF;
  is_member : bool;
  is_membership_op : bool;
  is_update_op : bool
}.

(** The builder: its hash gadget and its entry log. *)
Record AvmMerkleTreeTraceBuilder : Type := {
  poseidon2_builder : list Poseidon2Event;
  merkle_check_trace : list MerkleEntry
}.

Definition empty_builder : AvmMerkleTreeTraceBuilder :=
  {| poseidon2_builder := []; merkle_check_trace := [] |}.

(** The Merkle columns of a row of the main trace. *)
Record AvmFullRow : Type := {
  merkle_tree_clk : FF;
  merkle_tree_leaf_index : FF;
  merkle_tree_leaf_value : FF;
  merkle_tree_expected_tree_root : FF;
  merkle_tree_leaf_index_is_even : FF;
  merkle_tree_left_hash : FF;
  merkle_tree_right_hash : FF;
  merkle_tree_output_hash : FF;
  merkle_tree_sibling_value : FF;
  merkle_tree_path_len : FF;
  merkle_tree_path_len_inv : FF;
  merkle_tree_sel_merkle_tree : FF;
  merkle_tree_diff_inv : FF;
  merkle_tree_latch : FF;
  merkle_tree_is_member : FF;
  merkle_tree_sel_membership_op : FF;
  merkle_tree_sel_update_op : FF
}.

(** A default-constructed row: every column is zero. *)
Definition empty_row : AvmFullRow :=
  {| merkle_tree_clk := FF_zero;
     merkle_tree_leaf_index := FF_zero;
     merkle_tree_leaf_value := FF_zero;
     merkle_tree_expected_tree_root := FF_zero;
     merkle_tree_leaf_index_is_even := FF_zero;
     merkle_tree_left_hash := FF_zero;
     merkle_tree_right_hash := FF_zero;
     merkle_tree_output_hash := FF_zero;
     merkle_tree_sibling_value := FF_zero;
     merkle_tree_path_len := FF_zero;
     merkle_tree_path_len_inv := FF_zero;
     merkle_tree_sel_merkle_tree := FF_zero;
     merkle_tree_diff_inv := FF_zero;
     merkle_tree_latch := FF_zero;
     merkle_tree_is_member := FF_zero;
     merkle_tree_sel_membership_op := FF_zero;
     merkle_tree_sel_update_op := FF_zero |}.

(** ** [compute_root_from_path] *)

(** The state of the loop of [compute_root_from_path]. *)
Record RootLoop : Type := {
  curr_value : FF;
  curr_index : Z;
  loop_path_values : list FF;
  loop_events : list Poseidon2Event
}.

(** [n] iterations of the loop body, the first one at level [i]; [i]
    stays below [path_length], so [i++] does not wrap. *)
Fixpoint compute_root_loop (entry_id : Z) (path : list FF) (n : nat) (i : Z)
  (st : RootLoop) : RootLoop :=
  match n with
  | O => st
  | S n' =>
      let path_parity := is_even (curr_index st) in
      let '(h, events) :=
        if path_parity
        then poseidon2_hash (loop_events st) (curr_value st)
               (vec_at FF_zero path i) (add32 entry_id i)
        else poseidon2_hash (loop_events st) (vec_at FF_zero path i)
               (curr_value st) (add32 entry_id i) in
      compute_root_loop entry_id path n' (i + 1)
        {| curr_value := h;
           curr_index := shr1 (curr_index st);
           loop_path_values := loop_path_values st ++ [h];
           loop_events := events |}
  end.

Definition compute_root_from_path (b : AvmMerkleTreeTraceBuilder)
  (clk : Z) (leaf_value : FF) (leaf_index : Z) (path : list FF)
  : MerkleEntry * AvmMerkleTreeTraceBuilder :=
  let path_length := size32 path in
  let entry_id := shl32 clk 6 in
  let st := compute_root_loop entry_id path (Z.to_nat path_length) 0
              {| curr_value := leaf_value;
                 curr_index := leaf_index;
                 loop_path_values := [];
                 loop_events := poseidon2_builder b |} in
  ({| clk := clk;
      leaf_value := leaf_value;
      leaf_index := leaf_index;
      path := path;
      path_bits := [];
      path_values := loop_path_values st;
      root := curr_value st;
      is_member := false;
      is_membership_op := false;
      is_update_op := false |},
   {| poseidon2_builder := loop_events st;
      merkle_check_trace := merkle_check_trace b |}).

(** ** [check_membership] and [update_leaf_index] *)

Definition push_back (b : AvmMerkleTreeTraceBuilder) (entry : MerkleEntry)
  : AvmMerkleTreeTraceBuilder :=
  {| poseidon2_builder := poseidon2_builder b;
     merkle_check_trace := merkle_check_trace b ++ [entry] |}.

Definition check_membership (b : AvmMerkleTreeTraceBuilder)
  (clk_ : Z) (leaf_value_ : FF) (leaf_index_ : Z) (path_ : list FF) (root_ : FF)
  : bool * AvmMerkleTreeTraceBuilder :=
  let '(entry, b1) :=
    compute_root_from_path b clk_ leaf_value_ leaf_index_ path_ in
  let is_member_ := FF_eqb (root entry) root_ in
  let entry' :=
    {| clk := clk entry;
       leaf_value := leaf_value entry;
       leaf_index := leaf_index entry;
       path := path entry;
       path_bits := path_bits entry;
       path_values := path_values entry;
       root := if is_member_ then root entry else root_;
       is_member := is_member_;
       is_membership_op := true;
       is_update_op := is_update_op entry |} in
  (is_member entry', push_back b1 entry').

Definition update_leaf_index (b : AvmMerkleTreeTraceBuilder)
  (clk_ : Z) (leaf_value_ : FF) (leaf_index_ : Z) (path_ : list FF)
  : FF * AvmMerkleTreeTraceBuilder :=
  let '(entry, b1) :=
    compute_root_from_path b clk_ leaf_value_ leaf_index_ path_ in
  let entry' :=
    {| clk := clk entry;
       leaf_value := leaf_value entry;
       leaf_index := leaf_index entry;
       path := path entry;
       path_bits := path_bits entry;
       path_values := path_values entry;
       root := root entry;
       is_member := is_member entry;
       is_membership_op := is_membership_op entry;
       is_update_op := true |} in
  (root entry', push_back b1 entry').

(** ** [finalize] *)

(** How [finalize] can stop early: [main_trace.at] throws on a position
    past the end of the table, and inverting zero is fatal. *)
Inductive Fault : Type :=
| out_of_range
| invert_of_zero.

(** The result of [finalize]: the table and the final value of
    [main_trace_counter], or the fault together with the table as it was
    left.  The counter never exceeds the size of the table, hence is not
    reduced. *)
Inductive Finalized : Type :=
| Completed (main_trace : list AvmFullRow) (main_trace_counter : nat)
| Faulted (f : Fault) (main_trace : list AvmFullRow).

(** [x == 0 ? 0 : FF(x).invert()] on an unsigned integer [x]. *)
Definition inverse_or_zero_uint (x : Z) : option FF :=
  if x =? 0 then Some (FF_of_uint 0) else FF_invert (FF_of_uint x).

(** [d == FF::zero() ? FF::zero() : d.invert()] on a field element [d]. *)
Definition inverse_or_zero (d : FF) : option FF :=
  if FF_eqb d FF_zero then Some FF_zero else FF_invert d.

(** The body of the inner loop on the row [dest], for level [i] of [src]
    with the loop variables [leaf_index_] and [curr_value_]; [None] when an
    inversion is fatal. *)
Definition fill_row (src : MerkleEntry) (path_length i leaf_index_ : Z)
  (curr_value_ : FF) (dest : AvmFullRow) : option AvmFullRow :=
  let sibling_value := vec_at FF_zero (path src) i in
  let even := is_even leaf_index_ in
  let output := vec_at FF_zero (path_values src) i in
  match inverse_or_zero_uint (to_size_t (path_length - i - 1)) with
  | None => None
  | Some path_len_inv =>
      match inverse_or_zero (FF_sub output (root src)) with
      | None => None
      | Some diff_inv =>
          let last := i =? to_uint32 (path_length - 1) in
          Some
            {| merkle_tree_clk :=
                 FF_of_uint (to_size_t (shl32 (clk src) 6 + i));
               merkle_tree_leaf_index := FF_of_uint leaf_index_;
               merkle_tree_leaf_value := curr_value_;
               merkle_tree_expected_tree_root := root src;
               merkle_tree_leaf_index_is_even := FF_of_bool even;
               merkle_tree_left_hash :=
                 if even then curr_value_ else sibling_value;
               merkle_tree_right_hash :=
                 if even then sibling_value else curr_value_;
               merkle_tree_output_hash := output;
               merkle_tree_sibling_value := sibling_value;
               merkle_tree_path_len :=
                 FF_of_uint (to_size_t (path_length - i - 1));
               merkle_tree_path_len_inv := path_len_inv;
               merkle_tree_sel_merkle_tree := FF_one;
               merkle_tree_diff_inv := diff_inv;
               merkle_tree_latch :=
                 if last then FF_one else merkle_tree_latch dest;
               merkle_tree_is_member :=
                 if last then FF_of_bool (is_member src)
                 else merkle_tree_is_member dest;
               merkle_tree_sel_membership_op :=
                 if last then FF_of_bool (is_membership_op src)
                 else merkle_tree_sel_membership_op dest;
               merkle_tree_sel_update_op :=
                 if last then FF_of_bool (is_update_op src)
                 else merkle_tree_sel_update_op dest |}
      end
  end.

(** [n] iterations of the inner loop, the first one at level [i]; [i]
    is a [size_t] below [path_length]. *)
Fixpoint finalize_levels (src : MerkleEntry) (path_length : Z) (n : nat)
  (i leaf_index_ : Z) (curr_value_ : FF)
  (main_trace : list AvmFullRow) (main_trace_counter : nat) : Finalized :=
  match n with
  | O => Completed main_trace main_trace_counter
  | S n' =>
      match nth_error main_trace main_trace_counter with
      | None => Faulted out_of_range main_trace
      | Some dest =>
          match fill_row src path_length i leaf_index_ curr_value_ dest with
          | None => Faulted invert_of_zero main_trace
          | Some dest' =>
              finalize_levels src path_length n' (i + 1) (shr1 leaf_index_)
                (vec_at FF_zero (path_values src) i)
                (vec_set main_trace main_trace_counter dest')
                (S main_trace_counter)
          end
      end
  end.

(** One iteration of the outer loop. *)
Definition finalize_entry (src : MerkleEntry)
  (main_trace : list AvmFullRow) (main_trace_counter : nat) : Finalized :=
  let path_length := size32 (path src) in
  finalize_levels src path_length (Z.to_nat path_length) 0
    (leaf_index src) (leaf_value src) main_trace main_trace_counter.

(** The outer loop over the entries that are left. *)
Fixpoint finalize_entries (entries : list MerkleEntry)
  (main_trace : list AvmFullRow) (main_trace_counter : nat) : Finalized :=
  match entries with
  | [] => Completed main_trace main_trace_counter
  | src :: rest =>
      match finalize_entry src main_trace main_trace_counter with
      | Completed main_trace' main_trace_counter' =>
          finalize_entries rest main_trace' main_trace_counter'
      | Faulted f main_trace' => Faulted f main_trace'
      end
  end.

Definition finalize (b : AvmMerkleTreeTraceBuilder)
  (main_trace : list AvmFullRow) : Finalized :=
  finalize_entries (merkle_check_trace b) main_trace 0%nat.

(** ** Sequences of recorded operations *)

(** A call of one of the two recording operations. *)
Inductive Call : Type :=
| CheckMembership (clk_ : Z) (leaf_value_ : FF) (leaf_index_ : Z)
    (path_ : list FF) (root_ : FF)
| UpdateLeafIndex (clk_ : Z) (leaf_value_ : FF) (leaf_index_ : Z)
    (path_ : list FF).

Definition call_path (c : Call) : list FF :=
  match c with
  | CheckMembership _ _ _ p _ => p
  | UpdateLeafIndex _ _ _ p => p
  end.

Definition do_call (b : AvmMerkleTreeTraceBuilder) (c : Call)
  : AvmMerkleTreeTraceBuilder :=
  match c with
  | CheckMembership c_ v i p r => snd (check_membership b c_ v i p r)
  | UpdateLeafIndex c_ v i p => snd (update_leaf_index b c_ v i p)
  end.

(** The builder after the calls [cs], made in this order on a new
    builder. *)
Definition record (cs : list Call) : AvmMerkleTreeTraceBuilder :=
  fold_left do_call cs empty_builder.

(** The table [finalize] leaves, whether it completes or not. *)
Definition table_of (r : Finalized) : list AvmFullRow :=
  match r with
  | Completed main_trace _ => main_trace
  | Faulted _ main_trace => main_trace
  end.

(** ** The specification's reading of the two algorithms *)

(** The leaf-to-root replay as the specification words it, on the
    siblings that are left, from the level [level]: the root, the
    intermediate hashes and the invocations of the hash gadget.  [<<] and
    [+] are the ones of the clock's type, [uint32_t]. *)
Fixpoint spec_replay (clock level : Z) (current_value : FF)
  (current_index : Z) (siblings : list FF)
  : FF * list FF * list Poseidon2Event :=
  match siblings with
  | [] => (current_value, [], [])
  | sibling :: rest =>
      let domain := add32 (shl32 clock 6) level in
      let '(l, r) :=
        if current_index mod 2 =? 0
        then (current_value, sibling)
        else (sibling, current_value) in
      let h := hash l r domain in
      let '(root_, values, events) :=
        spec_replay clock (level + 1) h (Z.shiftr current_index 1) rest in
      (root_, h :: values,
       {| p2_left := l; p2_right := r; p2_clk := domain; p2_output := h |}
       :: events)
  end.

(** The number of levels [finalize] visits for the entry [e], its
    [path_length]; it is the length of the path when this fits
    [uint32_t]. *)
Definition depth (e : MerkleEntry) : nat := Z.to_nat (size32 (path e)).

(** The levels of all entries, in entry order and then in leaf-to-root
    order: the position in this list is the row the level is written to. *)
Definition levels (entries : list MerkleEntry) : list (MerkleEntry * nat) :=
  flat_map (fun e => map (pair e) (seq 0 (depth e))) entries.

(** The number of rows the entries ask for. *)
Definition demand (entries : list MerkleEntry) : nat :=
  list_sum (map depth entries).

(** The loop variables of [finalize] at level [i] of [e], in closed form. *)
Definition leaf_index_at_level (e : MerkleEntry) (i : nat) : Z :=
  Z.shiftr (leaf_index e) (Z.of_nat i).

Definition leaf_value_at_level (e : MerkleEntry) (i : nat) : FF :=
  match i with
  | O => leaf_value e
  | S j => vec_at FF_zero (path_values e) (Z.of_nat j)
  end.

(** The row written for level [i] of [e] over the row [dest]. *)
Definition level_row (e : MerkleEntry) (i : nat) (dest : AvmFullRow)
  : option AvmFullRow :=
  fill_row e (size32 (path e)) (Z.of_nat i) (leaf_index_at_level e i)
    (leaf_value_at_level e i) dest.

(** ** Predicates of the specification *)

(** The structural invariant of a logged entry. *)
Definition entry_invariant (e : MerkleEntry) : Prop :=
  length (path_values e) = length (path e) /\
  path_bits e = [] /\
  xorb (is_membership_op e) (is_update_op e) = true /\
  (is_member e = true -> is_membership_op e = true).

(** The entry a call appends to the log of [b]. *)
Definition entry_of_call (b : AvmMerkleTreeTraceBuilder) (c : Call)
  : MerkleEntry :=
  last (merkle_check_trace (do_call b c))
       (fst (compute_root_from_path b 0 FF_zero 0 [])).

(** Calls whose paths all have a size that fits [uint32_t]. *)
Definition paths_fit (cs : list Call) : Prop :=
  Forall (fun c => fits_uint32 (call_path c)) cs.

(** An inverse column next to the value [x] it belongs to: both zero, or
    both nonzero with product one. *)
Definition indicator_law (x inv : FF) : Prop :=
  (x = FF_zero /\ inv = FF_zero) \/
  (x <> FF_zero /\ inv <> FF_zero /\ FF_mul x inv = FF_one).

(** [finalize], run on the table [t] after the calls [cs], has written
    the row at position [k] for level [i] of the entry [e]; the row was
    [dest] before and is [row] after. *)
Definition written_row (cs : list Call) (t : list AvmFullRow) (k : nat)
  (e : MerkleEntry) (i : nat) (dest row : AvmFullRow) : Prop :=
  nth_error (levels (merkle_check_trace (record cs))) k = Some (e, i) /\
  nth_error t k = Some dest /\
  nth_error (table_of (finalize (record cs) t)) k = Some row.

(** The invocations of the hash gadget for the entry [e]. *)
Definition entry_events (e : MerkleEntry) : list Poseidon2Event :=
  snd (spec_replay (clk e) 0 (leaf_value e) (leaf_index e) (path e)).

(** The clock of a call. *)
Definition call_clk (c : Call) : Z :=
  match c with
  | CheckMembership c_ _ _ _ _ => c_
  | UpdateLeafIndex c_ _ _ _ => c_
  end.

(** The domain identifiers [compute_root_from_path] gives the hash gadget
    for a call, level after level. *)
Definition call_domains (c : Call) : list Z :=
  map (fun j => add32 (shl32 (call_clk c) 6) (Z.of_nat j))
    (seq 0 (length (call_path c))).

(** The last intermediate hash of an entry, its leaf value when it has
    none: the value the loop of [compute_root_from_path] ends with. *)
Definition computed_root (e : MerkleEntry) : FF :=
  last (path_values e) (leaf_value e).

End MerkleTree.

Arguments Poseidon2Event {F}.
Arguments MerkleEntry {F}.
Arguments AvmMerkleTreeTraceBuilder {F}.
Arguments AvmFullRow {F}.
Arguments Finalized {F}.
Arguments Call {F}.

(** ** A field to run the definitions on

    The rationals in canonical form: a field whose integers are all
    distinct, as the field of the source is for machine integers. *)
Module QcField.

Import QArith Qcanon.

#[export] Instance Qc_field : FieldElement := {|
  FF := Qc;
  FF_zero := Q2Qc 0;
  FF_one := Q2Qc 1;
  FF_sub := Qcminus;
  FF_mul := Qcmult;
  FF_eq_dec := Qc_eq_dec;
  FF_of_uint := fun n => Q2Qc (inject_Z n);
  FF_invert :=
    fun x => if Qc_eq_dec x (Q2Qc 0) then None else Some (Qcinv x)
|}.

(** A hash to run the definitions on: [2 l - r]. *)
Definition toy_hash (l r : Qc) (domain : Z) : Qc :=
  Qcminus (Qcmult (Q2Qc 2) l) r.

Definition q (n : Z) : Qc := Q2Qc (inject_Z n).

(** Scenario A of the specification: depth 2, leaf index 1, clock 5, leaf
    7 and siblings 3 and 4; with [toy_hash] the hashes are [h0 = -1] and
    [h1 = -6], and the check is against [h1]. *)
Definition scenario_a : list (Call (F := Qc_field)) :=
  [CheckMembership 5 (q 7) 1 [q 3; q 4] (q (-6))].

(** Scenario B: the same check against the root 100. *)
Definition scenario_b : list (Call (F := Qc_field)) :=
  [CheckMembership 5 (q 7) 1 [q 3; q 4] (q 100)].

(** A membership check and an update, of depths 2 and 3. *)
Definition two_calls : list (Call (F := Qc_field)) :=
  [CheckMembership 5 (q 7) 1 [q 3; q 4] (q (-6));
   UpdateLeafIndex 6 (q 9) 6 [q 1; q 2; q 8]].

(** A row whose latch is already 1. *)
Definition latched_row : AvmFullRow (F := Qc_field) :=
  {| merkle_tree_clk := FF_zero;
     merkle_tree_leaf_index := FF_zero;
     merkle_tree_leaf_value := FF_zero;
     merkle_tree_expected_tree_root := FF_zero;
     merkle_tree_leaf_index_is_even := FF_zero;
     merkle_tree_left_hash := FF_zero;
     merkle_tree_right_hash := FF_zero;
     merkle_tree_output_hash := FF_zero;
     merkle_tree_sibling_value := FF_zero;
     merkle_tree_path_len := FF_zero;
     merkle_tree_path_len_inv := FF_zero;
     merkle_tree_sel_merkle_tree := FF_zero;
     merkle_tree_diff_inv := FF_zero;
     merkle_tree_latch := FF_one;
     merkle_tree_is_member := FF_zero;
     merkle_tree_sel_membership_op := FF_zero;
     merkle_tree_sel_update_op := FF_zero |}.

(** The entry of the only call of a scenario, and the row [finalize]
    leaves at position [k] of the table [t]. *)
Definition entry_of (cs : list (Call (F := Qc_field)))
  : MerkleEntry (F := Qc_field) :=
  nth 0 (merkle_check_trace (record toy_hash cs))
    (fst (compute_root_from_path toy_hash empty_builder 0 FF_zero 0 [])).

Definition row_of (cs : list (Call (F := Qc_field)))
  (t : list (AvmFullRow (F := Qc_field))) (k : nat)
  : AvmFullRow (F := Qc_field) :=
  nth k (table_of (finalize (record toy_hash cs) t)) empty_row.

End QcField.

(** * Properties *)

(** ** Machine integers and vectors *)

Lemma to_uint32_small (z : Z) : 0 <= z < 2 ^ 32 -> to_uint32 z = z.
Proof. intros H. unfold to_uint32. now apply Z.mod_small. Qed.

Lemma to_size_t_small (z : Z) : 0 <= z < 2 ^ 64 -> to_size_t z = z.
Proof. intros H. unfold to_size_t. now apply Z.mod_small. Qed.

Lemma to_uint32_range (z : Z) : 0 <= to_uint32 z < 2 ^ 32.
Proof. unfold to_uint32. apply Z.mod_pos_bound. lia. Qed.

Lemma to_size_t_range (z : Z) : 0 <= to_size_t z < 2 ^ 64.
Proof. unfold to_size_t. apply Z.mod_pos_bound. lia. Qed.

Lemma size32_fits {A : Type} (v : list A) :
  fits_uint32 v -> size32 v = Z.of_nat (length v).
Proof.
  unfold fits_uint32, size32. intros H. apply to_uint32_small. lia.
Qed.

Lemma size32_fits_nat {A : Type} (v : list A) :
  fits_uint32 v -> Z.to_nat (size32 v) = length v.
Proof. intros H. rewrite (size32_fits v H). apply Nat2Z.id. Qed.

(** [clk << 6] is a multiple of 64 below [2^32], hence adding a level
    below 64 does not wrap. *)
Lemma shl32_6_room (c : Z) : 0 <= shl32 c 6 <= 2 ^ 32 - 64.
Proof.
  unfold shl32, to_uint32. rewrite Z.shiftl_mul_pow2 by lia.
  change (2 ^ 32) with (2 ^ 26 * 2 ^ 6).
  rewrite Z.mul_mod_distr_r by lia.
  pose proof (Z.mod_pos_bound c (2 ^ 26) ltac:(lia)). lia.
Qed.

Lemma add32_level (c i : Z) :
  0 <= i < 64 -> add32 (shl32 c 6) i = shl32 c 6 + i.
Proof.
  intros H. unfold add32. pose proof (shl32_6_room c).
  apply to_uint32_small. lia.
Qed.

Lemma vec_at_app_middle {A : Type} (d : A) (pre post : list A) (x : A) :
  vec_at d (pre ++ x :: post) (Z.of_nat (length pre)) = x.
Proof. unfold vec_at. rewrite Nat2Z.id. apply nth_middle. Qed.

Lemma vec_set_length {A : Type} (v : list A) (n : nat) (x : A) :
  length (vec_set v n x) = length v.
Proof.
  revert n. induction v as [|h t IH]; intros [|n]; simpl; auto.
Qed.

Lemma vec_set_same {A : Type} (v : list A) (n : nat) (x : A) :
  (n < length v)%nat -> nth_error (vec_set v n x) n = Some x.
Proof.
  revert n. induction v as [|h t IH]; intros [|n] H; simpl in *;
    try lia; auto.
  apply IH. lia.
Qed.

Lemma vec_set_other {A : Type} (v : list A) (n m : nat) (x : A) :
  n <> m -> nth_error (vec_set v n x) m = nth_error v m.
Proof.
  revert n m. induction v as [|h t IH]; intros [|n] [|m] H; simpl;
    try congruence; auto.
Qed.

Section Levels.

Context {F : FieldElement}.

Lemma depth_fits (e : MerkleEntry) :
  fits_uint32 (path e) -> depth e = length (path e).
Proof. apply size32_fits_nat. Qed.

Lemma levels_cons (e : MerkleEntry) (es : list MerkleEntry) :
  levels (e :: es) = map (pair e) (seq 0 (depth e)) ++ levels es.
Proof. reflexivity. Qed.

Lemma levels_length (es : list MerkleEntry) :
  length (levels es) = demand es.
Proof.
  unfold levels, demand. rewrite length_flat_map. f_equal.
  apply map_ext. intros e. now rewrite length_map, length_seq.
Qed.

Lemma levels_head (e : MerkleEntry) (es : list MerkleEntry) (k : nat) :
  (k < depth e)%nat -> nth_error (levels (e :: es)) k = Some (e, k).
Proof.
  intros Hk. rewrite levels_cons, nth_error_app1
    by (now rewrite length_map, length_seq).
  rewrite nth_error_map, nth_error_seq.
  destruct (Nat.ltb_spec k (depth e)); [reflexivity | lia].
Qed.

Lemma levels_tail (e : MerkleEntry) (es : list MerkleEntry) (k : nat) :
  (depth e <= k)%nat ->
  nth_error (levels (e :: es)) k = nth_error (levels es) (k - depth e).
Proof.
  intros Hk. rewrite levels_cons, nth_error_app2
    by (now rewrite length_map, length_seq).
  now rewrite length_map, length_seq.
Qed.

End Levels.

Section Recording.

Context {F : FieldElement}.
Variable hash : FF -> FF -> Z -> FF.

(** ** The path evaluator *)

(** The loop of [compute_root_from_path], started at the level where the
    siblings [pre] are behind and [post] ahead, is the replay of [post]. *)
Lemma compute_root_loop_spec (c : Z) (post pre : list FF) (st : RootLoop) :
  compute_root_loop hash (shl32 c 6) (pre ++ post) (length post)
    (Z.of_nat (length pre)) st =
  let '(root_, values, events) :=
    spec_replay hash c (Z.of_nat (length pre)) (curr_value st)
      (curr_index st) post in
  {| curr_value := root_;
     curr_index := Z.shiftr (curr_index st) (Z.of_nat (length post));
     loop_path_values := loop_path_values st ++ values;
     loop_events := loop_events st ++ events |}.
Proof.
  revert pre st. induction post as [|s post IH]; intros pre st.
  - simpl. rewrite !app_nil_r. now destruct st.
  - cbn [length compute_root_loop spec_replay].
    rewrite vec_at_app_middle.
    replace (pre ++ s :: post) with ((pre ++ [s]) ++ post)
      by (now rewrite <- app_assoc).
    replace (Z.of_nat (length pre) + 1)
      with (Z.of_nat (length (pre ++ [s])))
      by (rewrite length_app; simpl; lia).
    unfold is_even, poseidon2_hash.
    destruct (curr_index st mod 2 =? 0); cbn zeta beta iota;
      rewrite IH; cbn [curr_value curr_index loop_path_values loop_events];
      unfold shr1;
      match goal with
      | |- context [spec_replay ?h ?a ?b ?x ?y ?z] =>
          destruct (spec_replay h a b x y z) as [[r vs] es]
      end;
      rewrite Z.shiftr_shiftr by lia;
      rewrite <- !app_assoc; cbn [app];
      f_equal; f_equal; lia.
Qed.

(** [compute_root_from_path] on a path whose size fits [uint32_t]. *)
Lemma compute_root_from_path_replay (b : AvmMerkleTreeTraceBuilder)
  (c : Z) (v : FF) (ix : Z) (p : list FF) :
  fits_uint32 p ->
  compute_root_from_path hash b c v ix p =
  let '(root_, values, events) := spec_replay hash c 0 v ix p in
  ({| clk := c; leaf_value := v; leaf_index := ix; path := p;
      path_bits := []; path_values := values; root := root_;
      is_member := false; is_membership_op := false;
      is_update_op := false |},
   {| poseidon2_builder := poseidon2_builder b ++ events;
      merkle_check_trace := merkle_check_trace b |}).
Proof.
  intros Hfit. unfold compute_root_from_path.
  rewrite (size32_fits_nat p Hfit).
  pose proof (compute_root_loop_spec c p []
    {| curr_value := v; curr_index := ix; loop_path_values := [];
       loop_events := poseidon2_builder b |}) as H.
  cbn [app length Z.of_nat curr_value curr_index loop_path_values
       loop_events] in H.
  rewrite H.
  destruct (spec_replay hash c 0 v ix p) as [[r vs] es]. reflexivity.
Qed.

Lemma spec_replay_length (c lvl : Z) (v : FF) (ix : Z) (p : list FF) :
  length (snd (fst (spec_replay hash c lvl v ix p))) = length p.
Proof.
  revert lvl v ix. induction p as [|s p IH]; intros lvl v ix; simpl; auto.
  destruct (ix mod 2 =? 0);
    match goal with
    | |- context [spec_replay ?h ?a ?b ?x ?y ?z] =>
        specialize (IH b x y);
        destruct (spec_replay h a b x y z) as [[r vs] es]
    end; simpl in *; now rewrite IH.
Qed.

(** What the evaluator leaves in the entry besides the replay. *)
Lemma compute_root_from_path_entry (b : AvmMerkleTreeTraceBuilder)
  (c : Z) (v : FF) (ix : Z) (p : list FF) :
  let e := fst (compute_root_from_path hash b c v ix p) in
  clk e = c /\ leaf_value e = v /\ leaf_index e = ix /\ path e = p /\
  path_bits e = [] /\ is_member e = false /\ is_membership_op e = false /\
  is_update_op e = false.
Proof. simpl. repeat split. Qed.

Lemma compute_root_from_path_log (b : AvmMerkleTreeTraceBuilder)
  (c : Z) (v : FF) (ix : Z) (p : list FF) :
  merkle_check_trace (snd (compute_root_from_path hash b c v ix p)) =
  merkle_check_trace b.
Proof. reflexivity. Qed.

Lemma compute_root_from_path_values_length (b : AvmMerkleTreeTraceBuilder)
  (c : Z) (v : FF) (ix : Z) (p : list FF) :
  fits_uint32 p ->
  length (path_values (fst (compute_root_from_path hash b c v ix p))) =
  length p.
Proof.
  intros Hfit. rewrite (compute_root_from_path_replay b c v ix p Hfit).
  pose proof (spec_replay_length c 0 v ix p) as H.
  destruct (spec_replay hash c 0 v ix p) as [[r vs] es]. exact H.
Qed.

Lemma FF_eqb_true_iff (x y : FF) : FF_eqb x y = true <-> x = y.
Proof.
  unfold FF_eqb. destruct (FF_eq_dec x y); split; congruence.
Qed.

(** ** The structural invariant of the log *)

Lemma do_call_log (b : AvmMerkleTreeTraceBuilder) (c : Call) :
  merkle_check_trace (do_call hash b c) =
  merkle_check_trace b ++ [entry_of_call hash b c].
Proof.
  unfold entry_of_call.
  destruct c as [c_ v ix p r | c_ v ix p]; simpl; now rewrite last_last.
Qed.

Lemma entry_of_call_path (b : AvmMerkleTreeTraceBuilder) (c : Call) :
  path (entry_of_call hash b c) = call_path c.
Proof.
  unfold entry_of_call.
  destruct c as [c_ v ix p r | c_ v ix p]; simpl; now rewrite last_last.
Qed.

Lemma entry_of_call_invariant (b : AvmMerkleTreeTraceBuilder) (c : Call) :
  fits_uint32 (call_path c) -> entry_invariant (entry_of_call hash b c).
Proof.
  intros Hfit. unfold entry_of_call, entry_invariant.
  destruct c as [c_ v ix p r | c_ v ix p]; simpl in Hfit;
    pose proof (compute_root_from_path_values_length b c_ v ix p Hfit)
      as Hl;
    simpl in *; rewrite last_last; simpl; repeat split; auto; discriminate.
Qed.

Lemma fold_do_call_log (cs : list Call) (b : AvmMerkleTreeTraceBuilder) :
  exists new : list MerkleEntry,
    merkle_check_trace (fold_left (do_call hash) cs b) =
    merkle_check_trace b ++ new /\
    length new = length cs /\
    map path new = map call_path cs /\
    (paths_fit cs -> Forall entry_invariant new).
Proof.
  revert b. induction cs as [|c cs IH]; intros b.
  - exists []. simpl. rewrite app_nil_r. repeat split; auto.
  - destruct (IH (do_call hash b c))
      as (new & Hlog & Hlen & Hpath & Hinv).
    exists (entry_of_call hash b c :: new). simpl.
    rewrite Hlog, do_call_log, <- app_assoc. simpl.
    rewrite Hlen, Hpath, entry_of_call_path. repeat split; auto.
    intros Hall. inversion Hall; subst.
    constructor; auto using entry_of_call_invariant.
Qed.

Lemma record_log (cs : list Call) :
  length (merkle_check_trace (record hash cs)) = length cs /\
  map path (merkle_check_trace (record hash cs)) = map call_path cs /\
  (paths_fit cs ->
   Forall entry_invariant (merkle_check_trace (record hash cs))).
Proof.
  unfold record.
  destruct (fold_do_call_log cs empty_builder) as (new & Hlog & H).
  rewrite Hlog. exact H.
Qed.

Lemma record_paths_fit (cs : list Call) :
  paths_fit cs ->
  Forall (fun e => fits_uint32 (path e))
    (merkle_check_trace (record hash cs)).
Proof.
  intros Hfit. destruct (record_log cs) as (_ & Hpath & _).
  apply Forall_forall. intros e He.
  apply (in_map path) in He. rewrite Hpath in He.
  apply in_map_iff in He. destruct He as (c & <- & Hc).
  unfold paths_fit in Hfit. rewrite Forall_forall in Hfit. now apply Hfit.
Qed.

Lemma record_demand (cs : list Call) :
  paths_fit cs ->
  demand (merkle_check_trace (record hash cs)) =
  list_sum (map (fun c => length (call_path c)) cs).
Proof.
  intros Hfit. unfold demand. destruct (record_log cs) as (_ & Hpath & _).
  rewrite (map_ext_in depth (fun e => length (path e))).
  - rewrite <- (map_map path (@length FF)), Hpath, map_map. reflexivity.
  - intros e He. apply depth_fits.
    pose proof (record_paths_fit cs Hfit) as Hfits.
    rewrite Forall_forall in Hfits. now apply Hfits.
Qed.

(** ** The entry of a call does not depend on the builder *)

Lemma compute_root_loop_events_irrelevant (c : Z) (p : list FF) (n : nat) :
  forall (i : Z) (st st' : RootLoop),
  curr_value st = curr_value st' ->
  curr_index st = curr_index st' ->
  loop_path_values st = loop_path_values st' ->
  curr_value (compute_root_loop hash c p n i st) =
  curr_value (compute_root_loop hash c p n i st') /\
  loop_path_values (compute_root_loop hash c p n i st) =
  loop_path_values (compute_root_loop hash c p n i st').
Proof.
  induction n as [|n IH]; intros i st st' Hv Hi Hp.
  - now split.
  - cbn [compute_root_loop]. unfold poseidon2_hash.
    rewrite Hv, Hi, Hp.
    destruct (is_even (curr_index st')); apply IH; reflexivity.
Qed.

Lemma compute_root_from_path_builder_irrelevant
  (b b' : AvmMerkleTreeTraceBuilder) (c : Z) (v : FF) (ix : Z)
  (p : list FF) :
  fst (compute_root_from_path hash b c v ix p) =
  fst (compute_root_from_path hash b' c v ix p).
Proof.
  unfold compute_root_from_path. cbn [fst].
  destruct (compute_root_loop_events_irrelevant (shl32 c 6) p
              (Z.to_nat (size32 p)) 0
              {| curr_value := v; curr_index := ix; loop_path_values := [];
                 loop_events := poseidon2_builder b |}
              {| curr_value := v; curr_index := ix; loop_path_values := [];
                 loop_events := poseidon2_builder b' |}
              eq_refl eq_refl eq_refl) as [-> ->].
  reflexivity.
Qed.

Lemma check_membership_unfold (b : AvmMerkleTreeTraceBuilder)
  (c : Z) (v : FF) (ix : Z) (p : list FF) (r : FF) :
  check_membership hash b c v ix p r =
  let computed := compute_root_from_path hash b c v ix p in
  let e := fst computed in
  let m := FF_eqb (root e) r in
  (m, push_back (snd computed)
        {| clk := clk e; leaf_value := leaf_value e;
           leaf_index := leaf_index e; path := path e;
           path_bits := path_bits e; path_values := path_values e;
           root := if m then root e else r; is_member := m;
           is_membership_op := true; is_update_op := is_update_op e |}).
Proof. reflexivity. Qed.

Lemma update_leaf_index_unfold (b : AvmMerkleTreeTraceBuilder)
  (c : Z) (v : FF) (ix : Z) (p : list FF) :
  update_leaf_index hash b c v ix p =
  let computed := compute_root_from_path hash b c v ix p in
  let e := fst computed in
  (root e, push_back (snd computed)
        {| clk := clk e; leaf_value := leaf_value e;
           leaf_index := leaf_index e; path := path e;
           path_bits := path_bits e; path_values := path_values e;
           root := root e; is_member := is_member e;
           is_membership_op := is_membership_op e; is_update_op := true |}).
Proof. reflexivity. Qed.

Lemma entry_of_call_builder_irrelevant (b b' : AvmMerkleTreeTraceBuilder)
  (c : Call) :
  entry_of_call hash b c = entry_of_call hash b' c.
Proof.
  unfold entry_of_call.
  destruct c as [c_ v ix p r | c_ v ix p]; cbn [do_call].
  - rewrite !check_membership_unfold. cbv zeta. cbn [snd push_back
      merkle_check_trace]. rewrite !last_last.
    now rewrite (compute_root_from_path_builder_irrelevant b b').
  - rewrite !update_leaf_index_unfold. cbv zeta. cbn [snd push_back
      merkle_check_trace]. rewrite !last_last.
    now rewrite (compute_root_from_path_builder_irrelevant b b').
Qed.

Lemma fold_do_call_entries (cs : list Call) :
  forall b : AvmMerkleTreeTraceBuilder,
  merkle_check_trace (fold_left (do_call hash) cs b) =
  merkle_check_trace b ++ map (entry_of_call hash empty_builder) cs.
Proof.
  induction cs as [|c cs IH]; intros b; cbn [fold_left map].
  - now rewrite app_nil_r.
  - rewrite IH, do_call_log, <- app_assoc.
    now rewrite (entry_of_call_builder_irrelevant b empty_builder).
Qed.

Lemma record_entries (cs : list Call) :
  merkle_check_trace (record hash cs) =
  map (entry_of_call hash empty_builder) cs.
Proof. unfold record. now rewrite fold_do_call_entries. Qed.

(** ** The hash invocations of a log *)

Lemma spec_replay_events (c : Z) (p : list FF) :
  forall (lvl : Z) (v : FF) (ix : Z),
  length (snd (spec_replay hash c lvl v ix p)) = length p /\
  forall (i : nat) (ev : Poseidon2Event),
    nth_error (snd (spec_replay hash c lvl v ix p)) i = Some ev ->
    p2_clk ev = add32 (shl32 c 6) (lvl + Z.of_nat i).
Proof.
  induction p as [|s p IH]; intros lvl v ix.
  - split; [reflexivity|]. intros [|i] ev H; discriminate.
  - cbn [spec_replay].
    destruct (ix mod 2 =? 0);
      match goal with
      | |- context [spec_replay ?h ?a ?b ?x ?y ?z] =>
          destruct (IH b x y) as (Hl & Hn);
          destruct (spec_replay h a b x y z) as [[r vs] es]
      end; cbn [snd length] in *;
      (split; [now rewrite Hl|]);
      intros [|i] ev H; cbn [nth_error] in H.
    + injection H as <-. cbn. now rewrite Z.add_0_r.
    + rewrite (Hn i ev H). f_equal. lia.
    + injection H as <-. cbn. now rewrite Z.add_0_r.
    + rewrite (Hn i ev H). f_equal. lia.
Qed.

Lemma entry_events_length (e : MerkleEntry) :
  length (entry_events hash e) = length (path e).
Proof. unfold entry_events. apply spec_replay_events. Qed.

Lemma do_call_events (b : AvmMerkleTreeTraceBuilder) (c : Call) :
  fits_uint32 (call_path c) ->
  poseidon2_builder (do_call hash b c) =
  poseidon2_builder b ++ entry_events hash (entry_of_call hash b c).
Proof.
  intros Hfit. unfold entry_of_call, entry_events.
  destruct c as [c_ v ix p r | c_ v ix p]; cbn [call_path] in Hfit;
    cbn [do_call]; unfold check_membership, update_leaf_index;
    rewrite (compute_root_from_path_replay b c_ v ix p Hfit);
    destruct (spec_replay hash c_ 0 v ix p) as [[r0 vs] es] eqn:E;
    cbn; rewrite last_last; cbn; now rewrite E.
Qed.

Lemma fold_do_call_events (cs : list Call) :
  paths_fit cs ->
  forall b : AvmMerkleTreeTraceBuilder,
  exists new : list MerkleEntry,
    merkle_check_trace (fold_left (do_call hash) cs b) =
    merkle_check_trace b ++ new /\
    poseidon2_builder (fold_left (do_call hash) cs b) =
    poseidon2_builder b ++ flat_map (entry_events hash) new.
Proof.
  induction 1 as [|c cs Hc _ IH]; intros b.
  - exists []. cbn. now rewrite !app_nil_r.
  - destruct (IH (do_call hash b c)) as (new & Hlog & Hev).
    exists (entry_of_call hash b c :: new). cbn [fold_left flat_map].
    rewrite Hlog, Hev, do_call_log, (do_call_events b c Hc).
    now rewrite <- !app_assoc.
Qed.

Lemma record_events (cs : list Call) :
  paths_fit cs ->
  poseidon2_builder (record hash cs) =
  flat_map (entry_events hash) (merkle_check_trace (record hash cs)).
Proof.
  intros Hfit. unfold record.
  destruct (fold_do_call_events cs Hfit empty_builder) as (new & Hlog & Hev).
  now rewrite Hlog, Hev.
Qed.

Lemma levels_in (es : list MerkleEntry) (k : nat) (e : MerkleEntry)
  (i : nat) :
  nth_error (levels es) k = Some (e, i) ->
  In e es /\ (i < depth e)%nat.
Proof.
  intros H. apply nth_error_In in H. unfold levels in H.
  apply in_flat_map in H. destruct H as (e' & He' & H).
  apply in_map_iff in H. destruct H as (j & Hj & Hin).
  injection Hj as -> ->. split; auto.
  apply in_seq in Hin. lia.
Qed.

Lemma events_at_level (es : list MerkleEntry) :
  Forall (fun e => fits_uint32 (path e)) es ->
  forall (k : nat) (e : MerkleEntry) (i : nat),
  nth_error (levels es) k = Some (e, i) ->
  nth_error (flat_map (entry_events hash) es) k =
  nth_error (entry_events hash e) i.
Proof.
  induction 1 as [|e0 es Hfit _ IH]; intros k e i H.
  - destruct k; discriminate.
  - cbn [flat_map]. apply depth_fits in Hfit.
    destruct (le_lt_dec (depth e0) k) as [Hge | Hlt].
    + rewrite levels_tail in H by exact Hge.
      rewrite nth_error_app2 by (rewrite entry_events_length; lia).
      rewrite entry_events_length, <- Hfit. now apply IH.
    + rewrite levels_head in H by exact Hlt. injection H as <- <-.
      apply nth_error_app1. rewrite entry_events_length. lia.
Qed.

(** ** The claims on recording *)

(** C1.  For every clock, leaf value, leaf index and sibling path (of a size
    that fits the [uint32_t] the code casts it to), [compute_root_from_path]
    computes exactly the leaf-to-root replay of the specification: from
    [current_value = leaf_value] and [current_index = leaf_index], level [i]
    hashes [(current_value, path[i])] when [current_index] is even and
    [(path[i], current_value)] when it is odd, with the domain
    [(clock << 6) + i], appends the result to [path_values] and halves
    [current_index]; the root of the entry is the last [current_value].  The
    invocations of the hash gadget are the ones of the replay, in its
    order, one per level, and the log is left as it was.  [<<] and [+] are
    the ones of [uint32_t]; below level 64 the sum does not wrap. *)
Theorem compute_root_from_path_computes_spec_replay
  (b : AvmMerkleTreeTraceBuilder) (clock : Z) (leaf : FF) (index : Z)
  (siblings : list FF) :
  fits_uint32 siblings ->
  let replay := spec_replay hash clock 0 leaf index siblings in
  let root_ := fst (fst replay) in
  let values := snd (fst replay) in
  let events := snd replay in
  compute_root_from_path hash b clock leaf index siblings =
  ({| clk := clock; leaf_value := leaf; leaf_index := index;
      path := siblings; path_bits := []; path_values := values;
      root := root_; is_member := false; is_membership_op := false;
      is_update_op := false |},
   {| poseidon2_builder := poseidon2_builder b ++ events;
      merkle_check_trace := merkle_check_trace b |}) /\
  length values = length siblings /\
  length events = length siblings /\
  (forall (i : nat) (ev : Poseidon2Event),
     nth_error events i = Some ev ->
     p2_clk ev = add32 (shl32 clock 6) (Z.of_nat i) /\
     ((i < 64)%nat -> p2_clk ev = shl32 clock 6 + Z.of_nat i)).
Proof.
  intros Hfit. cbv zeta.
  rewrite (compute_root_from_path_replay b clock leaf index siblings Hfit).
  pose proof (spec_replay_length clock 0 leaf index siblings) as Hv.
  destruct (spec_replay_events clock siblings 0 leaf index) as (He & Hn).
  destruct (spec_replay hash clock 0 leaf index siblings) as [[r vs] es].
  cbn [fst snd] in *.
  split; [reflexivity|]. split; [exact Hv|]. split; [exact He|].
  intros i ev Hev. apply Hn in Hev. cbn in Hev.
  split; [exact Hev|]. intros Hi. rewrite Hev. apply add32_level. lia.
Qed.

(** C2.  [check_membership] returns [true] exactly when the root the path
    evaluator computes equals the expected root it is given.  The entry it
    appends is the evaluator's entry with the membership flag raised,
    [is_member] equal to the returned boolean, and [root] equal to the
    computed root on a match and to the expected root on a mismatch.  The
    result is always this boolean: the function has no other way out. *)
Theorem check_membership_outcome
  (b : AvmMerkleTreeTraceBuilder) (clock : Z) (leaf : FF) (index : Z)
  (siblings : list FF) (expected : FF) :
  let computed :=
    fst (compute_root_from_path hash b clock leaf index siblings) in
  let result :=
    check_membership hash b clock leaf index siblings expected in
  (fst result = true <-> root computed = expected) /\
  (fst result = false <-> root computed <> expected) /\
  exists entry : MerkleEntry,
    merkle_check_trace (snd result) = merkle_check_trace b ++ [entry] /\
    is_member entry = fst result /\
    is_membership_op entry = true /\
    is_update_op entry = false /\
    (root computed = expected -> root entry = root computed) /\
    (root computed <> expected -> root entry = expected) /\
    clk entry = clock /\ leaf_value entry = leaf /\
    leaf_index entry = index /\ path entry = siblings /\
    path_values entry = path_values computed.
Proof.
  cbv zeta. unfold check_membership.
  destruct (compute_root_from_path hash b clock leaf index siblings)
    as [e b1] eqn:E.
  pose proof (compute_root_from_path_entry b clock leaf index siblings) as He.
  pose proof (compute_root_from_path_log b clock leaf index siblings) as Hl.
  rewrite E in He, Hl. cbn [fst snd] in *.
  destruct He as (Hc & Hv & Hi & Hp & _ & _ & _ & Hu).
  cbn [fst snd is_member]. unfold FF_eqb.
  destruct (FF_eq_dec (root e) expected) as [Heq | Hne].
  - split; [tauto|]. split; [split; [discriminate | contradiction]|].
    eexists. split; [cbn; now rewrite Hl|].
    cbn. repeat split; auto; contradiction.
  - split; [split; [discriminate | contradiction]|]. split; [tauto|].
    eexists. split; [cbn; now rewrite Hl|].
    cbn. repeat split; auto; contradiction.
Qed.

(** C7.  [update_leaf_index] returns the root the path evaluator computes,
    whatever its arguments, and the entry it appends is the evaluator's
    entry with the update flag raised and this root. *)
Theorem update_leaf_index_returns_computed_root
  (b : AvmMerkleTreeTraceBuilder) (clock : Z) (leaf : FF) (index : Z)
  (siblings : list FF) :
  let computed :=
    fst (compute_root_from_path hash b clock leaf index siblings) in
  let result := update_leaf_index hash b clock leaf index siblings in
  fst result = root computed /\
  exists entry : MerkleEntry,
    merkle_check_trace (snd result) = merkle_check_trace b ++ [entry] /\
    root entry = root computed /\
    is_update_op entry = true /\
    is_membership_op entry = false /\
    is_member entry = false /\
    clk entry = clock /\ leaf_value entry = leaf /\
    leaf_index entry = index /\ path entry = siblings /\
    path_values entry = path_values computed.
Proof.
  cbv zeta. unfold update_leaf_index.
  destruct (compute_root_from_path hash b clock leaf index siblings)
    as [e b1] eqn:E.
  pose proof (compute_root_from_path_entry b clock leaf index siblings) as He.
  pose proof (compute_root_from_path_log b clock leaf index siblings) as Hl.
  rewrite E in He, Hl. cbn [fst snd] in *.
  destruct He as (Hc & Hv & Hi & Hp & _ & Hm & Hmo & _).
  split; [reflexivity|].
  eexists. split; [cbn; now rewrite Hl|].
  cbn. repeat split; auto.
Qed.

(** C9.  After any sequence of [check_membership] and [update_leaf_index]
    calls (on paths of a size that fits [uint32_t]) every logged entry has
    as many [path_values] as siblings, an empty [path_bits], exactly one of
    the two operation flags, and [is_member] only on a membership entry.
    The log has one entry per call, and further calls only append to it:
    what was logged stays at its position, unchanged. *)
Theorem log_invariant (calls : list Call) :
  paths_fit calls ->
  Forall entry_invariant (merkle_check_trace (record hash calls)) /\
  length (merkle_check_trace (record hash calls)) = length calls /\
  forall more : list Call,
  exists new : list MerkleEntry,
    merkle_check_trace (record hash (calls ++ more)) =
    merkle_check_trace (record hash calls) ++ new.
Proof.
  intros Hfit. destruct (record_log calls) as (Hlen & _ & Hinv).
  split; [now apply Hinv|]. split; [exact Hlen|].
  intros more. unfold record. rewrite fold_left_app.
  destruct (fold_do_call_log more
              (fold_left (do_call hash) calls empty_builder))
    as (new & Hlog & _).
  now exists new.
Qed.

End Recording.

Section Finalizing.

Context {F : FieldElement} {L : FieldLaws F}.
Variable hash : FF -> FF -> Z -> FF.

(** ** The is-zero indicators *)

Lemma FF_invert_some (x : FF) :
  x <> FF_zero ->
  exists y : FF, FF_invert x = Some y /\ indicator_law x y.
Proof.
  intros Hx. destruct (FF_invert_nonzero x Hx) as (y & Hy & Hm).
  exists y. split; auto. right. repeat split; auto.
  intros ->. rewrite FF_mul_zero_r in Hm.
  now apply FF_one_neq_zero.
Qed.

Lemma inverse_or_zero_uint_total (x : Z) :
  0 <= x < 2 ^ 64 ->
  exists y : FF,
    inverse_or_zero_uint x = Some y /\ indicator_law (FF_of_uint x) y /\
    (x = 0 <-> y = FF_zero).
Proof.
  intros Hx. unfold inverse_or_zero_uint.
  destruct (Z.eqb_spec x 0) as [-> | Hne].
  - exists (FF_of_uint 0). rewrite FF_of_uint_zero.
    repeat split; auto. now left.
  - assert (Hnz : FF_of_uint x <> FF_zero)
      by (apply FF_of_uint_nonzero; lia).
    destruct (FF_invert_some _ Hnz) as (y & Hy & Hlaw).
    exists y. repeat split; auto; try contradiction.
    intros ->. destruct Hlaw as [[H _] | (_ & H & _)]; contradiction.
Qed.

Lemma inverse_or_zero_total (d : FF) :
  exists y : FF, inverse_or_zero d = Some y /\ indicator_law d y.
Proof.
  unfold inverse_or_zero, FF_eqb.
  destruct (FF_eq_dec d FF_zero) as [-> | Hne].
  - exists FF_zero. split; auto. now left.
  - now apply FF_invert_some.
Qed.

(** With the laws of the field no inversion in the loop body is fatal. *)
Lemma fill_row_total (src : MerkleEntry) (len i ix : Z) (v : FF)
  (dest : AvmFullRow) :
  exists r : AvmFullRow, fill_row src len i ix v dest = Some r.
Proof.
  unfold fill_row.
  destruct (inverse_or_zero_uint_total (to_size_t (len - i - 1))
              (to_size_t_range _)) as (y1 & -> & _).
  destruct (inverse_or_zero_total
              (FF_sub (vec_at FF_zero (path_values src) i) (root src)))
    as (y2 & -> & _).
  eexists. reflexivity.
Qed.

(** ** The inner loop *)

Lemma finalize_levels_spec (src : MerkleEntry) (len : Z) (n : nat) :
  forall (i ix : Z) (v : FF) (t : list AvmFullRow) (c : nat),
  (c <= length t)%nat ->
  let res := finalize_levels src len n i ix v t c in
  length (table_of res) = length t /\
  (forall j : nat, (j < c \/ c + n <= j)%nat ->
     nth_error (table_of res) j = nth_error t j) /\
  (forall (k : nat) (dest : AvmFullRow),
     (k < n)%nat -> nth_error t (c + k) = Some dest ->
     exists r : AvmFullRow,
       fill_row src len (i + Z.of_nat k) (Z.shiftr ix (Z.of_nat k))
         (match k with
          | O => v
          | S k' => vec_at FF_zero (path_values src) (i + Z.of_nat k')
          end) dest = Some r /\
       nth_error (table_of res) (c + k) = Some r) /\
  ((c + n <= length t)%nat -> res = Completed (table_of res) (c + n)) /\
  ((length t < c + n)%nat -> exists t', res = Faulted out_of_range t').
Proof.
  induction n as [|n IH]; intros i ix v t c Hc; cbn [finalize_levels].
  - cbn. rewrite Nat.add_0_r. repeat split; auto; intros; lia.
  - destruct (nth_error t c) as [dest0|] eqn:E.
    + assert (Hlt : (c < length t)%nat)
        by (apply nth_error_Some; congruence).
      destruct (fill_row_total src len i ix v dest0) as (r0 & Hr0).
      rewrite Hr0.
      specialize (IH (i + 1) (shr1 ix)
                    (vec_at FF_zero (path_values src) i)
                    (vec_set t c r0) (S c)).
      rewrite vec_set_length in IH. specialize (IH Hlt).
      cbv zeta in IH. destruct IH as (IH1 & IH2 & IH3 & IH4 & IH5).
      cbv zeta. repeat split.
      * exact IH1.
      * intros j Hj. rewrite IH2 by lia. apply vec_set_other. lia.
      * intros k dest Hk Hd. destruct k as [|k].
        -- rewrite Nat.add_0_r in *. rewrite E in Hd. injection Hd as <-.
           exists r0. split.
           ++ now rewrite Z.add_0_r, Z.shiftr_0_r.
           ++ rewrite IH2 by lia. now apply vec_set_same.
        -- destruct (IH3 k dest ltac:(lia)) as (r & Hr & Hn).
           { rewrite vec_set_other by lia. rewrite <- Hd. f_equal. lia. }
           exists r. split.
           ++ rewrite <- Hr. unfold shr1.
              rewrite Z.shiftr_shiftr by lia.
              replace (i + Z.of_nat (S k)) with (i + 1 + Z.of_nat k) by lia.
              replace (Z.of_nat (S k)) with (1 + Z.of_nat k) by lia.
              f_equal. destruct k as [|k'].
              ** now rewrite Z.add_0_r.
              ** f_equal. lia.
           ++ rewrite <- Hn. f_equal. lia.
      * intros H. rewrite IH4 by lia. f_equal. lia.
      * intros H. apply IH5. lia.
    + apply nth_error_None in E. cbn. repeat split; auto.
      * intros k dest _ Hd.
        assert (nth_error t (c + k) = None) by (apply nth_error_None; lia).
        congruence.
      * intros. lia.
      * intros. now exists t.
Qed.

(** ** The outer loop *)

Lemma finalize_entry_spec (src : MerkleEntry) (t : list AvmFullRow)
  (c : nat) :
  (c <= length t)%nat ->
  let n := depth src in
  let res := finalize_entry src t c in
  length (table_of res) = length t /\
  (forall j : nat, (j < c \/ c + n <= j)%nat ->
     nth_error (table_of res) j = nth_error t j) /\
  (forall (k : nat) (dest : AvmFullRow),
     (k < n)%nat -> nth_error t (c + k) = Some dest ->
     exists r : AvmFullRow,
       level_row src k dest = Some r /\
       nth_error (table_of res) (c + k) = Some r) /\
  ((c + n <= length t)%nat -> res = Completed (table_of res) (c + n)) /\
  ((length t < c + n)%nat -> exists t', res = Faulted out_of_range t').
Proof.
  intros Hc. unfold finalize_entry.
  pose proof (finalize_levels_spec src (size32 (path src))
                (depth src) 0 (leaf_index src) (leaf_value src)
                t c Hc) as H.
  fold (depth src).
  cbv zeta in *. destruct H as (H1 & H2 & H3 & H4 & H5).
  repeat split; [exact H1 | exact H2 | | exact H4 | exact H5].
  intros k dest Hk Hd. exact (H3 k dest Hk Hd).
Qed.

Lemma finalize_entries_spec (es : list MerkleEntry) :
  forall (t : list AvmFullRow) (c : nat),
  (c <= length t)%nat ->
  let res := finalize_entries es t c in
  length (table_of res) = length t /\
  (forall j : nat, (j < c \/ c + demand es <= j)%nat ->
     nth_error (table_of res) j = nth_error t j) /\
  (forall (k : nat) (e : MerkleEntry) (i : nat) (dest : AvmFullRow),
     nth_error (levels es) k = Some (e, i) ->
     nth_error t (c + k) = Some dest ->
     exists r : AvmFullRow,
       level_row e i dest = Some r /\
       nth_error (table_of res) (c + k) = Some r) /\
  ((c + demand es <= length t)%nat ->
     res = Completed (table_of res) (c + demand es)) /\
  ((length t < c + demand es)%nat ->
     exists t', res = Faulted out_of_range t').
Proof.
  induction es as [|e es IH]; intros t c Hc.
  - cbn. rewrite Nat.add_0_r. repeat split; auto.
    + intros k e i dest Hk. destruct k; discriminate.
    + intros. lia.
  - change (demand (e :: es)) with (depth e + demand es)%nat.
    cbn [finalize_entries].
    destruct (finalize_entry_spec e t c Hc) as (E1 & E2 & E3 & E4 & E5).
    destruct (le_lt_dec (c + depth e) (length t)) as [Hroom | Hshort].
    + rewrite (E4 Hroom).
      set (t1 := table_of (finalize_entry e t c)) in *.
      destruct (IH t1 (c + depth e)%nat ltac:(lia))
        as (I1 & I2 & I3 & I4 & I5).
      cbv zeta. repeat split.
      * congruence.
      * intros j Hj. rewrite I2 by lia. apply E2. lia.
      * intros k e0 i dest Hk Hd.
        destruct (le_lt_dec (depth e) k) as [Hge | Hlt].
        -- rewrite levels_tail in Hk by exact Hge.
           destruct (I3 _ e0 i dest Hk) as (r & Hr & Hn).
           { rewrite E2 by lia. rewrite <- Hd. f_equal. lia. }
           exists r. split; auto. rewrite <- Hn. f_equal. lia.
        -- rewrite levels_head in Hk by exact Hlt.
           injection Hk as <- <-.
           destruct (E3 k dest Hlt Hd) as (r & Hr & Hn).
           exists r. split; auto. rewrite I2 by lia. exact Hn.
      * intros H. rewrite I4 by lia. f_equal. lia.
      * intros H. apply I5. lia.
    + destruct (E5 Hshort) as (t' & Ht'). rewrite Ht' in *.
      cbn [table_of] in *. cbv zeta. repeat split.
      * exact E1.
      * intros j Hj. apply E2. lia.
      * intros k e0 i dest Hk Hd.
        assert (Hin : (c + k < length t)%nat)
          by (apply nth_error_Some; congruence).
        rewrite levels_head in Hk by lia. injection Hk as <- <-.
        apply E3; auto. lia.
      * intros. lia.
      * intros. now exists t'.
Qed.

(** [finalize] on the log of a builder: the rows below the demand are the
    level rows, in the order of [levels], the other rows are as they were,
    and the run completes exactly when the table has room for the demand. *)
Lemma finalize_spec (b : AvmMerkleTreeTraceBuilder) (t : list AvmFullRow) :
  let es := merkle_check_trace b in
  let res := finalize b t in
  length (table_of res) = length t /\
  (forall j : nat, (demand es <= j)%nat ->
     nth_error (table_of res) j = nth_error t j) /\
  (forall (k : nat) (e : MerkleEntry) (i : nat) (dest : AvmFullRow),
     nth_error (levels es) k = Some (e, i) ->
     nth_error t k = Some dest ->
     exists r : AvmFullRow,
       level_row e i dest = Some r /\ nth_error (table_of res) k = Some r) /\
  ((demand es <= length t)%nat ->
     res = Completed (table_of res) (demand es)) /\
  ((length t < demand es)%nat -> exists t', res = Faulted out_of_range t').
Proof.
  unfold finalize.
  destruct (finalize_entries_spec (merkle_check_trace b) t 0%nat ltac:(lia))
    as (H1 & H2 & H3 & H4 & H5).
  cbv zeta. repeat split; [exact H1 | | exact H3 | exact H4 | exact H5].
  intros j Hj. apply H2. lia.
Qed.

(** ** The columns of a written row *)

(** What the loop body writes, column by column. *)
Lemma fill_row_fields (src : MerkleEntry) (len i ix : Z) (v : FF)
  (dest r : AvmFullRow) :
  fill_row src len i ix v dest = Some r ->
  let last := i =? to_uint32 (len - 1) in
  let sibling := vec_at FF_zero (path src) i in
  merkle_tree_clk r = FF_of_uint (to_size_t (shl32 (clk src) 6 + i)) /\
  merkle_tree_leaf_index r = FF_of_uint ix /\
  merkle_tree_leaf_value r = v /\
  merkle_tree_expected_tree_root r = root src /\
  merkle_tree_leaf_index_is_even r = FF_of_bool (is_even ix) /\
  merkle_tree_left_hash r = (if is_even ix then v else sibling) /\
  merkle_tree_right_hash r = (if is_even ix then sibling else v) /\
  merkle_tree_output_hash r = vec_at FF_zero (path_values src) i /\
  merkle_tree_sibling_value r = sibling /\
  merkle_tree_path_len r = FF_of_uint (to_size_t (len - i - 1)) /\
  inverse_or_zero_uint (to_size_t (len - i - 1)) =
    Some (merkle_tree_path_len_inv r) /\
  merkle_tree_sel_merkle_tree r = FF_one /\
  inverse_or_zero
    (FF_sub (vec_at FF_zero (path_values src) i) (root src)) =
    Some (merkle_tree_diff_inv r) /\
  merkle_tree_latch r = (if last then FF_one else merkle_tree_latch dest) /\
  merkle_tree_is_member r =
    (if last then FF_of_bool (is_member src)
     else merkle_tree_is_member dest) /\
  merkle_tree_sel_membership_op r =
    (if last then FF_of_bool (is_membership_op src)
     else merkle_tree_sel_membership_op dest) /\
  merkle_tree_sel_update_op r =
    (if last then FF_of_bool (is_update_op src)
     else merkle_tree_sel_update_op dest).
Proof.
  unfold fill_row. intros H.
  destruct (inverse_or_zero_uint (to_size_t (len - i - 1))) as [y1|];
    [|discriminate].
  destruct (inverse_or_zero
              (FF_sub (vec_at FF_zero (path_values src) i) (root src)))
    as [y2|]; [|discriminate].
  injection H as <-. cbn. repeat split.
Qed.

(** A written row is the level row of a level the loops visit. *)
Lemma written_row_is_level_row (calls : list Call) (t : list AvmFullRow)
  (k : nat) (e : MerkleEntry) (i : nat) (dest row : AvmFullRow) :
  written_row hash calls t k e i dest row ->
  level_row e i dest = Some row /\
  (i < depth e)%nat /\
  In e (merkle_check_trace (record hash calls)).
Proof.
  intros (Hlv & Hd & Hr).
  destruct (finalize_spec (record hash calls) t) as (_ & _ & H3 & _).
  destruct (H3 k e i dest Hlv Hd) as (r & Hrow & Hn).
  rewrite Hn in Hr. injection Hr as <-.
  destruct (levels_in _ _ _ _ Hlv) as (Hin & Hi).
  now repeat split.
Qed.

(** When the paths fit, its level is below the length of the path of its
    entry, which satisfies the invariant. *)
Lemma written_row_level (calls : list Call) (t : list AvmFullRow) (k : nat)
  (e : MerkleEntry) (i : nat) (dest row : AvmFullRow) :
  paths_fit calls ->
  written_row hash calls t k e i dest row ->
  level_row e i dest = Some row /\
  (i < length (path e))%nat /\
  fits_uint32 (path e) /\
  entry_invariant e.
Proof.
  intros Hfit Hw.
  destruct (written_row_is_level_row calls t k e i dest row Hw)
    as (Hrow & Hi & Hin).
  pose proof (record_paths_fit hash calls Hfit) as Hfits.
  destruct (record_log hash calls) as (_ & _ & Hinv).
  specialize (Hinv Hfit). rewrite Forall_forall in Hfits, Hinv.
  pose proof (Hfits e Hin) as Hfe. cbv beta in Hfe.
  rewrite (depth_fits e Hfe) in Hi.
  split; [exact Hrow|]. split; [exact Hi|].
  split; [exact Hfe | exact (Hinv e Hin)].
Qed.

Lemma indicator_law_zero_iff (x inv : FF) :
  indicator_law x inv -> (inv = FF_zero <-> x = FF_zero).
Proof. intros [(Hx & Hy) | (Hx & Hy & _)]; tauto. Qed.

(** ** The claims on the row compiler *)


(** C8.  [finalize] faults exactly when the table has fewer rows than the
    logged entries have levels, and the fault is the one of [at]; with
    enough rows it completes.  It never completes short of the demand: a
    completed run has advanced its cursor by the whole demand, inside the
    table.  (The paths are taken of a size that fits [uint32_t].) *)
Theorem finalize_faults_iff_short (calls : list Call) (t : list AvmFullRow) :
  paths_fit calls ->
  let es := merkle_check_trace (record hash calls) in
  ((exists f t', finalize (record hash calls) t = Faulted f t') <->
   (length t < demand es)%nat) /\
  ((length t < demand es)%nat ->
   exists t', finalize (record hash calls) t = Faulted out_of_range t') /\
  ((demand es <= length t)%nat ->
   exists t', finalize (record hash calls) t = Completed t' (demand es)) /\
  (forall t' c, finalize (record hash calls) t = Completed t' c ->
   c = demand es /\ (demand es <= length t)%nat) /\
  demand es = list_sum (map (fun c => length (call_path c)) calls).
Proof.
  intros Hfit. cbv zeta.
  pose proof (record_demand hash calls Hfit) as Hsum.
  destruct (finalize_spec (record hash calls) t)
    as (_ & _ & _ & H4 & H5).
  set (es := merkle_check_trace (record hash calls)) in *.
  repeat split.
  - intros (f & t' & Hf).
    destruct (le_lt_dec (demand es) (length t)) as [Hroom | Hshort]; auto.
    rewrite (H4 Hroom) in Hf. discriminate.
  - intros Hshort. destruct (H5 Hshort) as (t' & Ht'). eauto.
  - exact H5.
  - intros Hroom. eexists. exact (H4 Hroom).
  - destruct (le_lt_dec (demand es) (length t)) as [Hroom | Hshort].
    + rewrite (H4 Hroom) in H. now injection H.
    + destruct (H5 Hshort) as (t'' & Ht''). congruence.
  - destruct (le_lt_dec (demand es) (length t)) as [Hroom | Hshort]; auto.
    destruct (H5 Hshort) as (t'' & Ht''). congruence.
  - exact Hsum.
Qed.

(** C5.  No run of [finalize] inverts zero: the only fault it can end in is
    the one of [at].  On every row it writes, the two inverse columns obey
    the is-zero-indicator law: [path_len_inv] is 0 exactly when the
    remaining length is 0 and is its inverse otherwise, and [diff_inv] is 0
    exactly when the output hash equals the expected root and is the inverse
    of their difference otherwise. *)
Theorem inverse_columns_law (calls : list Call) (t : list AvmFullRow) :
  (forall f t', finalize (record hash calls) t = Faulted f t' ->
     f = out_of_range) /\
  (forall (k : nat) (e : MerkleEntry) (i : nat) (dest row : AvmFullRow),
     written_row hash calls t k e i dest row ->
     indicator_law (merkle_tree_path_len row)
       (merkle_tree_path_len_inv row) /\
     (merkle_tree_path_len_inv row = FF_zero <->
      merkle_tree_path_len row = FF_zero) /\
     indicator_law
       (FF_sub (merkle_tree_output_hash row)
          (merkle_tree_expected_tree_root row))
       (merkle_tree_diff_inv row) /\
     (merkle_tree_diff_inv row = FF_zero <->
      merkle_tree_output_hash row = merkle_tree_expected_tree_root row)).
Proof.
  split.
  - intros f t' Hf.
    destruct (finalize_spec (record hash calls) t) as (_ & _ & _ & H4 & H5).
    destruct (le_lt_dec (demand (merkle_check_trace (record hash calls)))
                (length t)) as [Hroom | Hshort].
    + rewrite (H4 Hroom) in Hf. discriminate.
    + destruct (H5 Hshort) as (t'' & Ht''). congruence.
  - intros k e i dest row Hw.
    destruct (written_row_is_level_row calls t k e i dest row Hw)
      as (Hrow & _ & _).
    unfold level_row in Hrow. apply fill_row_fields in Hrow. cbv zeta in Hrow.
    destruct Hrow as (_ & _ & _ & Hroot & _ & _ & _ & Hout & _ & Hlen &
                      Hinv1 & _ & Hinv2 & _).
    destruct (inverse_or_zero_uint_total _ (to_size_t_range
                (size32 (path e) - Z.of_nat i - 1)))
      as (y1 & Hy1 & Hlaw1 & _).
    rewrite Hy1 in Hinv1. injection Hinv1 as ->.
    destruct (inverse_or_zero_total
                (FF_sub (vec_at FF_zero (path_values e) (Z.of_nat i))
                   (root e))) as (y2 & Hy2 & Hlaw2).
    rewrite Hy2 in Hinv2. injection Hinv2 as ->.
    rewrite Hlen, Hout, Hroot.
    split; [exact Hlaw1|].
    split; [now apply indicator_law_zero_iff|].
    split; [exact Hlaw2|].
    rewrite (indicator_law_zero_iff _ _ Hlaw2). apply FF_sub_zero_iff.
Qed.

Lemma vec_at_nth_error {A : Type} (d : A) (v : list A) (j : nat) :
  (j < length v)%nat -> nth_error v j = Some (vec_at d v (Z.of_nat j)).
Proof.
  intros H. unfold vec_at. rewrite Nat2Z.id. now apply nth_error_nth'.
Qed.

(** The hash invocation that belongs to the level written at row [k]. *)
Lemma event_of_written_row (calls : list Call) (t : list AvmFullRow)
  (k : nat) (e : MerkleEntry) (i : nat) (dest row : AvmFullRow) :
  paths_fit calls ->
  written_row hash calls t k e i dest row ->
  exists ev : Poseidon2Event,
    nth_error (poseidon2_builder (record hash calls)) k = Some ev /\
    p2_clk ev = add32 (shl32 (clk e) 6) (Z.of_nat i).
Proof.
  intros Hfit Hw.
  destruct (written_row_level calls t k e i dest row Hfit Hw)
    as (_ & Hi & _ & _).
  destruct Hw as (Hlv & _ & _).
  rewrite (record_events hash calls Hfit).
  rewrite (events_at_level hash _ (record_paths_fit hash calls Hfit) _ _ _ Hlv).
  destruct (nth_error (entry_events hash e) i) as [ev|] eqn:Hev.
  - exists ev. split; auto.
    unfold entry_events in Hev.
    now apply (proj2 (spec_replay_events hash (clk e) (path e) 0
                        (leaf_value e) (leaf_index e))) in Hev.
  - apply nth_error_None in Hev. rewrite entry_events_length in Hev. lia.
Qed.

(** C4.  The row [finalize] writes for level [i] of the entry [e] (paths of
    a size that fits [uint32_t]) has: the clock [(e.clk << 6) + i], which
    is the domain identifier [compute_root_from_path] gave the hash gadget
    at that level, for every level [i < 64], that is at every level of a
    tree of the depth the scheme is made for; the leaf index [e.leaf_index]
    halved [i] times; the leaf value [e.leaf_value] at level 0 and
    [e.path_values[i-1]] above; the operands [(leaf value, e.path[i])] when
    the leaf index at the level is even and [(e.path[i], leaf value)] when
    it is odd, the parity selector being 1 exactly when it is even; the
    output hash [e.path_values[i]]; the expected root [e.root]; and the
    remaining length [len(e.path) - i - 1]. *)
Theorem written_row_columns (calls : list Call) (t : list AvmFullRow)
  (k : nat) (e : MerkleEntry) (i : nat) (dest row : AvmFullRow) :
  paths_fit calls ->
  written_row hash calls t k e i dest row ->
  let index_at_level := leaf_index e / 2 ^ Z.of_nat i in
  let value_at_level := merkle_tree_leaf_value row in
  merkle_tree_clk row = FF_of_uint (shl32 (clk e) 6 + Z.of_nat i) /\
  (exists ev : Poseidon2Event,
     nth_error (poseidon2_builder (record hash calls)) k = Some ev /\
     p2_clk ev = add32 (shl32 (clk e) 6) (Z.of_nat i) /\
     ((i < 64)%nat -> merkle_tree_clk row = FF_of_uint (p2_clk ev))) /\
  merkle_tree_leaf_index row = FF_of_uint index_at_level /\
  match i with
  | O => value_at_level = leaf_value e
  | S j => nth_error (path_values e) j = Some value_at_level
  end /\
  (exists sibling : FF,
     nth_error (path e) i = Some sibling /\
     merkle_tree_sibling_value row = sibling /\
     (index_at_level mod 2 = 0 ->
      merkle_tree_left_hash row = value_at_level /\
      merkle_tree_right_hash row = sibling /\
      merkle_tree_leaf_index_is_even row = FF_one) /\
     (index_at_level mod 2 <> 0 ->
      merkle_tree_left_hash row = sibling /\
      merkle_tree_right_hash row = value_at_level /\
      merkle_tree_leaf_index_is_even row = FF_zero)) /\
  (merkle_tree_leaf_index_is_even row = FF_one <->
   index_at_level mod 2 = 0) /\
  nth_error (path_values e) i = Some (merkle_tree_output_hash row) /\
  merkle_tree_expected_tree_root row = root e /\
  merkle_tree_path_len row =
    FF_of_uint (Z.of_nat (length (path e) - i - 1)).
Proof.
  intros Hfit Hw. cbv zeta.
  destruct (written_row_level calls t k e i dest row Hfit Hw)
    as (Hrow & Hi & Hfe & (Hvals & _)).
  destruct (event_of_written_row calls t k e i dest row Hfit Hw)
    as (ev & Hev & Hclk).
  unfold level_row in Hrow. apply fill_row_fields in Hrow. cbv zeta in Hrow.
  destruct Hrow as (Rclk & Rix & Rval & Rroot & Reven & Rleft & Rright &
                    Rout & Rsib & Rlen & _).
  assert (Hbound : Z.of_nat i < 2 ^ 32) by (unfold fits_uint32 in Hfe; lia).
  pose proof (shl32_6_room (clk e)) as Hroom.
  rewrite to_size_t_small in Rclk by lia.
  unfold leaf_index_at_level in *.
  rewrite Z.shiftr_div_pow2 in * by lia.
  rewrite (size32_fits _ Hfe) in Rlen. unfold fits_uint32 in Hfe.
  rewrite to_size_t_small in Rlen by lia.
  split; [exact Rclk|].
  split.
  { exists ev. split; [exact Hev|]. split; [exact Hclk|].
    intros H64. rewrite Rclk, Hclk, add32_level by lia. reflexivity. }
  split; [exact Rix|].
  split.
  { rewrite Rval. destruct i as [|j]; cbn [leaf_value_at_level]; auto.
    apply vec_at_nth_error. lia. }
  split.
  { exists (vec_at FF_zero (path e) (Z.of_nat i)).
    split; [now apply vec_at_nth_error|]. split; [exact Rsib|].
    rewrite Rleft, Rright, Reven, Rval. unfold is_even.
    split; intros Hpar.
    - apply Z.eqb_eq in Hpar. now rewrite Hpar.
    - apply Z.eqb_neq in Hpar. now rewrite Hpar. }
  split.
  { rewrite Reven. unfold is_even.
    destruct (Z.eqb_spec (leaf_index e / 2 ^ Z.of_nat i mod 2) 0)
      as [Heq | Hne]; cbn [FF_of_bool].
    - tauto.
    - split; [|contradiction]. intros H. symmetry in H.
      now apply FF_one_neq_zero in H. }
  split; [rewrite Rout; apply vec_at_nth_error; lia|].
  split; [exact Rroot|].
  rewrite Rlen. f_equal. lia.
Qed.

(** C6, as amended.  In the block of rows [finalize] writes for one entry,
    the rows below the last level keep the four columns [latch],
    [is_member], [sel_membership_op] and [sel_update_op] as the table had
    them, hence 0 where the table had 0 there; on the row of the last level
    the latch is 1 and the three flags are the ones of the entry: the
    membership flag from [is_member], and exactly one of the two operation
    selectors raised, the one of the operation that recorded the entry.
    (The paths are taken of a size that fits [uint32_t].) *)
Theorem latch_columns (calls : list Call) (t : list AvmFullRow)
  (k : nat) (e : MerkleEntry) (i : nat) (dest row : AvmFullRow) :
  paths_fit calls ->
  written_row hash calls t k e i dest row ->
  (i < length (path e))%nat /\
  ((S i < length (path e))%nat ->
   merkle_tree_latch row = merkle_tree_latch dest /\
   merkle_tree_is_member row = merkle_tree_is_member dest /\
   merkle_tree_sel_membership_op row = merkle_tree_sel_membership_op dest /\
   merkle_tree_sel_update_op row = merkle_tree_sel_update_op dest) /\
  ((S i < length (path e))%nat ->
   merkle_tree_latch dest = FF_zero ->
   merkle_tree_is_member dest = FF_zero ->
   merkle_tree_sel_membership_op dest = FF_zero ->
   merkle_tree_sel_update_op dest = FF_zero ->
   merkle_tree_latch row = FF_zero /\
   merkle_tree_is_member row = FF_zero /\
   merkle_tree_sel_membership_op row = FF_zero /\
   merkle_tree_sel_update_op row = FF_zero) /\
  (S i = length (path e) ->
   merkle_tree_latch row = FF_one /\
   merkle_tree_is_member row = FF_of_bool (is_member e) /\
   merkle_tree_sel_membership_op row = FF_of_bool (is_membership_op e) /\
   merkle_tree_sel_update_op row = FF_of_bool (is_update_op e) /\
   is_update_op e = negb (is_membership_op e) /\
   (is_member e = true -> is_membership_op e = true) /\
   ((is_membership_op e = true /\
     merkle_tree_sel_membership_op row = FF_one /\
     merkle_tree_sel_update_op row = FF_zero) \/
    (is_update_op e = true /\
     merkle_tree_is_member row = FF_zero /\
     merkle_tree_sel_membership_op row = FF_zero /\
     merkle_tree_sel_update_op row = FF_one)) /\
   FF_one <> FF_zero).
Proof.
  intros Hfit Hw.
  destruct (written_row_level calls t k e i dest row Hfit Hw)
    as (Hrow & Hi & Hfe & (_ & _ & Hxor & Hmem)).
  unfold level_row in Hrow. apply fill_row_fields in Hrow. cbv zeta in Hrow.
  destruct Hrow as (_ & _ & _ & _ & _ & _ & _ & _ & _ & _ & _ & _ & _ &
                    Rlatch & Rmem & Rmop & Ruop).
  rewrite (size32_fits _ Hfe) in *.
  rewrite to_uint32_small in * by (unfold fits_uint32 in Hfe; lia).
  split; [exact Hi|].
  assert (Hinner : (S i < length (path e))%nat ->
            (Z.of_nat i =? Z.of_nat (length (path e)) - 1) = false)
    by (intros H; apply Z.eqb_neq; lia).
  split.
  { intros H. rewrite (Hinner H) in *. auto. }
  split.
  { intros H Z1 Z2 Z3 Z4. rewrite (Hinner H) in *.
    repeat split; congruence. }
  intros Hlast.
  assert (Hl : (Z.of_nat i =? Z.of_nat (length (path e)) - 1) = true)
    by (apply Z.eqb_eq; lia).
  rewrite Hl in *.
  split; [exact Rlatch|]. split; [exact Rmem|].
  split; [exact Rmop|]. split; [exact Ruop|].
  split; [destruct (is_membership_op e), (is_update_op e); cbn in *;
          congruence|].
  split; [exact Hmem|].
  split; [|exact FF_one_neq_zero].
  rewrite Rmem, Rmop, Ruop.
  destruct (is_membership_op e), (is_update_op e), (is_member e);
    cbn in *; try discriminate; auto.
  specialize (Hmem eq_refl). discriminate.
Qed.

(** ** Operations on an empty path *)

Lemma finalize_entries_app (es1 es2 : list MerkleEntry) :
  forall (t : list AvmFullRow) (c : nat),
  finalize_entries (es1 ++ es2) t c =
  match finalize_entries es1 t c with
  | Completed t' c' => finalize_entries es2 t' c'
  | Faulted f t' => Faulted f t'
  end.
Proof.
  induction es1 as [|e es1 IH]; intros t c; cbn [app finalize_entries].
  - reflexivity.
  - destruct (finalize_entry e t c) as [t' c' | f t']; auto.
Qed.

Lemma finalize_entry_empty_path (e : MerkleEntry) (t : list AvmFullRow)
  (c : nat) :
  path e = [] -> finalize_entry e t c = Completed t c.
Proof. intros H. unfold finalize_entry. now rewrite H. Qed.

(** C10.  An operation on an empty path: [compute_root_from_path] returns
    the leaf value as the root, no [path_values], and invokes no hash, so
    [check_membership] answers [true] exactly when the leaf value is the
    expected root; and [finalize] writes no row for its entry: the entry has
    no level, and the result of [finalize] on any table is the one it gives
    when the operation was never recorded, so no latch and no selector of
    the table marks the operation. *)
Theorem empty_path_operation :
  (forall (b : AvmMerkleTreeTraceBuilder) (clock : Z) (leaf : FF) (index : Z),
     let r := compute_root_from_path hash b clock leaf index [] in
     root (fst r) = leaf /\ path_values (fst r) = [] /\
     poseidon2_builder (snd r) = poseidon2_builder b /\
     merkle_check_trace (snd r) = merkle_check_trace b) /\
  (forall (b : AvmMerkleTreeTraceBuilder) (clock : Z) (leaf : FF) (index : Z)
          (expected : FF),
     fst (check_membership hash b clock leaf index [] expected) = true <->
     leaf = expected) /\
  (forall (before after : list Call) (call : Call) (t : list AvmFullRow),
     call_path call = [] ->
     let with_call := record hash (before ++ call :: after) in
     let without := record hash (before ++ after) in
     levels (merkle_check_trace with_call) =
     levels (merkle_check_trace without) /\
     finalize with_call t = finalize without t) /\
  (forall (calls : list Call) (k : nat) (e : MerkleEntry) (i : nat),
     nth_error (levels (merkle_check_trace (record hash calls))) k =
       Some (e, i) ->
     path e <> []).
Proof.
  split; [|split; [|split]].
  - intros b clock leaf index. cbn. repeat split.
  - intros b clock leaf index expected. cbn. apply FF_eqb_true_iff.
  - intros before after call t Hp. cbv zeta. unfold finalize.
    rewrite !record_entries, !map_app. cbn [map].
    assert (He : path (entry_of_call hash empty_builder call) = [])
      by (now rewrite entry_of_call_path).
    split.
    + unfold levels. rewrite !flat_map_app. cbn [flat_map].
      unfold depth at 2. now rewrite He.
    + rewrite !finalize_entries_app. cbn [finalize_entries].
      destruct (finalize_entries
                  (map (entry_of_call hash empty_builder) before) t 0)
        as [t' c' | f t']; auto.
      now rewrite (finalize_entry_empty_path _ t' c' He).
  - intros calls k e i Hk Hp.
    apply levels_in in Hk. destruct Hk as (_ & Hi).
    unfold depth in Hi. rewrite Hp in Hi. cbn in Hi. lia.
Qed.

End Finalizing.

(** * Further properties of the recorder *)

Section RecordingFurther.

Context {F : FieldElement}.
Variable hash : FF -> FF -> Z -> FF.

(** ** The replay and the leaf index *)

Lemma mod_pow2_succ (a b : Z) (n : nat) :
  a mod 2 ^ Z.of_nat (S n) = b mod 2 ^ Z.of_nat (S n) ->
  a mod 2 = b mod 2 /\
  Z.shiftr a 1 mod 2 ^ Z.of_nat n = Z.shiftr b 1 mod 2 ^ Z.of_nat n.
Proof.
  intros H. rewrite !Z.shiftr_div_pow2 by lia. change (2 ^ 1) with 2.
  replace (2 ^ Z.of_nat (S n)) with (2 * 2 ^ Z.of_nat n) in H
    by (rewrite Nat2Z.inj_succ, Z.pow_succ_r by lia; reflexivity).
  assert (Hp : 0 < 2 ^ Z.of_nat n) by (apply Z.pow_pos_nonneg; lia).
  rewrite !Z.rem_mul_r in H by lia.
  pose proof (Z.mod_pos_bound a 2 ltac:(lia)).
  pose proof (Z.mod_pos_bound b 2 ltac:(lia)).
  lia.
Qed.

Lemma spec_replay_index_mod (c : Z) (p : list FF) :
  forall (lvl : Z) (v : FF) (ix ix' : Z),
  ix mod 2 ^ Z.of_nat (length p) = ix' mod 2 ^ Z.of_nat (length p) ->
  spec_replay hash c lvl v ix p = spec_replay hash c lvl v ix' p.
Proof.
  induction p as [|s p IH]; intros lvl v ix ix' H.
  - reflexivity.
  - cbn [length] in H. apply mod_pow2_succ in H. destruct H as (Hpar & Hrest).
    cbn [spec_replay]. rewrite Hpar.
    destruct (ix' mod 2 =? 0); cbv zeta beta iota;
      now rewrite (IH _ _ _ _ Hrest).
Qed.

(** X1.  [compute_root_from_path] reads the leaf index only through its
    [len(path)] low bits: two leaf indices that agree modulo [2^len(path)]
    give the same root, the same [path_values] and the same invocations of
    the hash gadget, so [check_membership] answers the same for both.  (The
    path is of a size that fits [uint32_t].) *)
Theorem high_index_bits_are_ignored (b : AvmMerkleTreeTraceBuilder)
  (clock : Z) (leaf : FF) (index index' : Z) (siblings : list FF)
  (expected : FF) :
  fits_uint32 siblings ->
  index mod 2 ^ Z.of_nat (length siblings) =
  index' mod 2 ^ Z.of_nat (length siblings) ->
  let r := compute_root_from_path hash b clock leaf index siblings in
  let r' := compute_root_from_path hash b clock leaf index' siblings in
  root (fst r) = root (fst r') /\
  path_values (fst r) = path_values (fst r') /\
  poseidon2_builder (snd r) = poseidon2_builder (snd r') /\
  fst (check_membership hash b clock leaf index siblings expected) =
  fst (check_membership hash b clock leaf index' siblings expected).
Proof.
  intros Hfit Hmod. cbv zeta.
  rewrite !check_membership_unfold. cbv zeta. cbn [fst].
  rewrite !(compute_root_from_path_replay hash b clock leaf _ siblings Hfit).
  rewrite (spec_replay_index_mod clock siblings 0 leaf index index' Hmod).
  destruct (spec_replay hash clock 0 leaf index' siblings) as [[r vs] es].
  cbn. repeat split.
Qed.

(** ** The replay and the clock *)

Lemma shl32_6_mod (c c' : Z) :
  c mod 2 ^ 26 = c' mod 2 ^ 26 -> shl32 c 6 = shl32 c' 6.
Proof.
  intros H. unfold shl32, to_uint32. rewrite !Z.shiftl_mul_pow2 by lia.
  change (2 ^ 32) with (2 ^ 26 * 2 ^ 6).
  rewrite !Z.mul_mod_distr_r by lia. now rewrite H.
Qed.

(** X13.  The hashing reads the clock only through its 26 low bits: at two
    clocks that agree modulo [2^26] the path evaluator computes the same
    root and the same [path_values], and gives the hash gadget the same
    operands with the same domain identifiers. *)
Theorem high_clock_bits_are_ignored (b : AvmMerkleTreeTraceBuilder)
  (clock clock' : Z) (leaf : FF) (index : Z) (siblings : list FF) :
  clock mod 2 ^ 26 = clock' mod 2 ^ 26 ->
  let r := compute_root_from_path hash b clock leaf index siblings in
  let r' := compute_root_from_path hash b clock' leaf index siblings in
  root (fst r) = root (fst r') /\
  path_values (fst r) = path_values (fst r') /\
  poseidon2_builder (snd r) = poseidon2_builder (snd r').
Proof.
  intros H. cbv zeta. unfold compute_root_from_path.
  rewrite (shl32_6_mod clock clock' H). repeat split.
Qed.

(** ** Longer paths *)

Lemma spec_replay_app (c : Z) (p p' : list FF) :
  forall (lvl : Z) (v : FF) (ix : Z),
  spec_replay hash c lvl v ix (p ++ p') =
  let '(r, vs, es) := spec_replay hash c lvl v ix p in
  let '(r', vs', es') :=
    spec_replay hash c (lvl + Z.of_nat (length p)) r
      (Z.shiftr ix (Z.of_nat (length p))) p' in
  (r', vs ++ vs', es ++ es').
Proof.
  induction p as [|s p IH]; intros lvl v ix.
  - cbn [app spec_replay length Z.of_nat].
    rewrite Z.add_0_r, Z.shiftr_0_r.
    now destruct (spec_replay hash c lvl v ix p') as [[r' vs'] es'].
  - cbn [app spec_replay length].
    destruct (ix mod 2 =? 0); cbv zeta beta iota; rewrite IH;
      match goal with
      | |- context [spec_replay hash c (lvl + 1) ?x ?y p] =>
          destruct (spec_replay hash c (lvl + 1) x y p) as [[r vs] es]
      end;
      rewrite Z.shiftr_shiftr by lia;
      replace (lvl + 1 + Z.of_nat (length p))
        with (lvl + Z.of_nat (S (length p))) by lia;
      replace (1 + Z.of_nat (length p))
        with (Z.of_nat (S (length p))) by lia;
      match goal with
      | |- context [spec_replay hash c ?a ?x ?y p'] =>
          destruct (spec_replay hash c a x y p') as [[r' vs'] es']
      end; reflexivity.
Qed.

(** X2.  One more sibling: the evaluation of [path ++ [sibling]] keeps the
    [path_values] of the evaluation of [path] and adds one hash, the new
    root, of the root of [path] and the sibling, in the order that bit
    [len(path)] of the leaf index gives and with the domain of level
    [len(path)].  (The longer path is of a size that fits [uint32_t].) *)
Theorem one_more_sibling (b : AvmMerkleTreeTraceBuilder)
  (clock : Z) (leaf : FF) (index : Z) (siblings : list FF) (sibling : FF) :
  fits_uint32 (siblings ++ [sibling]) ->
  let e := fst (compute_root_from_path hash b clock leaf index siblings) in
  let e' :=
    fst (compute_root_from_path hash b clock leaf index
           (siblings ++ [sibling])) in
  let level := Z.of_nat (length siblings) in
  let domain := add32 (shl32 clock 6) level in
  path_values e' = path_values e ++ [root e'] /\
  root e' =
    (if (index / 2 ^ level) mod 2 =? 0
     then hash (root e) sibling domain
     else hash sibling (root e) domain).
Proof.
  intros Hfit. cbv zeta.
  assert (Hfit0 : fits_uint32 siblings).
  { unfold fits_uint32 in *. rewrite length_app in Hfit. lia. }
  rewrite (compute_root_from_path_replay hash b clock leaf index _ Hfit).
  rewrite (compute_root_from_path_replay hash b clock leaf index _ Hfit0).
  rewrite spec_replay_app.
  destruct (spec_replay hash clock 0 leaf index siblings) as [[r vs] es].
  cbn [spec_replay]. rewrite Z.shiftr_div_pow2 by lia.
  destruct ((index / 2 ^ Z.of_nat (length siblings)) mod 2 =? 0);
    cbn; split; reflexivity.
Qed.

(** ** What came before does not matter *)

(** X3.  The root an operation computes does not depend on what the builder
    has recorded or hashed before: [update_leaf_index] returns the same root
    on any two builders, [check_membership] the same answer, and a
    membership check against the root that an update at the same clock, of
    the same leaf, index and path, returned succeeds. *)
Theorem operations_ignore_the_builder (b b' : AvmMerkleTreeTraceBuilder)
  (clock : Z) (leaf : FF) (index : Z) (siblings : list FF) (expected : FF) :
  fst (update_leaf_index hash b clock leaf index siblings) =
  fst (update_leaf_index hash b' clock leaf index siblings) /\
  fst (check_membership hash b clock leaf index siblings expected) =
  fst (check_membership hash b' clock leaf index siblings expected) /\
  fst (check_membership hash b clock leaf index siblings
         (fst (update_leaf_index hash b' clock leaf index siblings))) = true.
Proof.
  rewrite !check_membership_unfold, !update_leaf_index_unfold.
  cbv zeta. cbn [fst].
  rewrite (compute_root_from_path_builder_irrelevant hash b b').
  repeat split. now apply FF_eqb_true_iff.
Qed.

(** ** The root of a logged entry *)

Lemma compute_root_loop_last (c : Z) (p : list FF) (d : FF) (n : nat) :
  forall (i : Z) (st : RootLoop),
  curr_value st = last (loop_path_values st) d ->
  curr_value (compute_root_loop hash c p n i st) =
  last (loop_path_values (compute_root_loop hash c p n i st)) d.
Proof.
  induction n as [|n IH]; intros i st H.
  - exact H.
  - cbn [compute_root_loop]. unfold poseidon2_hash.
    destruct (is_even (curr_index st)); apply IH;
      cbn [curr_value loop_path_values]; now rewrite last_last.
Qed.

Lemma compute_root_from_path_root (b : AvmMerkleTreeTraceBuilder)
  (c : Z) (v : FF) (ix : Z) (p : list FF) :
  root (fst (compute_root_from_path hash b c v ix p)) =
  computed_root (fst (compute_root_from_path hash b c v ix p)).
Proof.
  unfold computed_root, compute_root_from_path.
  cbn [fst root path_values leaf_value].
  now apply compute_root_loop_last.
Qed.

Lemma entry_of_call_root (b : AvmMerkleTreeTraceBuilder) (c : Call) :
  let e := entry_of_call hash b c in
  match c with
  | CheckMembership _ _ _ _ r =>
      is_membership_op e = true /\ is_update_op e = false /\ root e = r /\
      (is_member e = true <-> r = computed_root e)
  | UpdateLeafIndex _ _ _ _ =>
      is_update_op e = true /\ is_membership_op e = false /\
      is_member e = false /\ root e = computed_root e
  end.
Proof.
  unfold entry_of_call.
  destruct c as [c_ v ix p r | c_ v ix p]; cbn [do_call].
  - rewrite check_membership_unfold. cbv zeta.
    cbn [snd push_back merkle_check_trace]. rewrite last_last.
    pose proof (compute_root_from_path_root b c_ v ix p) as Hr.
    unfold computed_root in *. cbn [path_values leaf_value root
      is_member is_membership_op is_update_op].
    cbn [compute_root_from_path fst is_update_op] in *.
    unfold FF_eqb.
    match goal with
    | |- context [FF_eq_dec ?x r] => destruct (FF_eq_dec x r) as [Heq | Hne]
    end.
    + repeat split; auto. now rewrite <- Heq, Hr.
    + repeat split; auto; try discriminate.
      intros ->. now rewrite Hr in Hne.
  - rewrite update_leaf_index_unfold. cbv zeta.
    cbn [snd push_back merkle_check_trace]. rewrite last_last.
    pose proof (compute_root_from_path_root b c_ v ix p) as Hr.
    unfold computed_root in *. cbn [path_values leaf_value root
      is_member is_membership_op is_update_op].
    cbn [compute_root_from_path fst is_member is_membership_op] in *.
    repeat split; auto.
Qed.

(** X4.  After any sequence of calls, the root of every update entry is the
    last of its [path_values] (its leaf value when the path is empty); the
    root of a membership entry is the root the check was given, and its
    [is_member] flag says whether this root is the last of its
    [path_values]. *)
Theorem logged_roots (calls : list Call) :
  Forall2
    (fun (c : Call) (e : MerkleEntry) =>
       match c with
       | CheckMembership _ _ _ _ r =>
           is_membership_op e = true /\ is_update_op e = false /\
           root e = r /\ (is_member e = true <-> r = computed_root e)
       | UpdateLeafIndex _ _ _ _ =>
           is_update_op e = true /\ is_membership_op e = false /\
           is_member e = false /\ root e = computed_root e
       end)
    calls (merkle_check_trace (record hash calls)).
Proof.
  rewrite record_entries.
  induction calls as [|c cs IH]; cbn [map]; constructor; auto.
  apply (entry_of_call_root empty_builder c).
Qed.

(** What X4 says of one logged entry. *)
Lemma logged_entry_root (calls : list Call) (e : MerkleEntry) :
  In e (merkle_check_trace (record hash calls)) ->
  (is_update_op e = true -> is_member e = false /\ root e = computed_root e) /\
  (is_membership_op e = true ->
   (is_member e = true <-> root e = computed_root e)).
Proof.
  rewrite record_entries. intros Hin. apply in_map_iff in Hin.
  destruct Hin as (c & <- & _).
  pose proof (entry_of_call_root empty_builder c) as H. cbv zeta in H.
  destruct c as [c_ v ix p r | c_ v ix p].
  - destruct H as (_ & Hu & Hr & Hm). rewrite Hu, Hr.
    split; [discriminate | auto].
  - destruct H as (_ & Hm & Hf & Hr). rewrite Hm.
    split; [auto | discriminate].
Qed.

(** ** The domain identifiers of a log *)

Lemma spec_replay_domains (c : Z) (p : list FF) :
  forall (lvl : Z) (v : FF) (ix : Z),
  map p2_clk (snd (spec_replay hash c lvl v ix p)) =
  map (fun j => add32 (shl32 c 6) (lvl + Z.of_nat j)) (seq 0 (length p)).
Proof.
  induction p as [|s p IH]; intros lvl v ix.
  - reflexivity.
  - cbn [spec_replay length seq map].
    destruct (ix mod 2 =? 0); cbv zeta beta iota;
      match goal with
      | |- context [spec_replay hash c (lvl + 1) ?x ?y p] =>
          specialize (IH (lvl + 1) x y);
          destruct (spec_replay hash c (lvl + 1) x y p) as [[r vs] es]
      end; cbn [snd map p2_clk] in *; rewrite IH, Z.add_0_r;
      f_equal; rewrite <- seq_shift, map_map; apply map_ext; intros j;
      f_equal; lia.
Qed.

Lemma entry_of_call_clk (b : AvmMerkleTreeTraceBuilder) (c : Call) :
  clk (entry_of_call hash b c) = call_clk c.
Proof.
  unfold entry_of_call.
  destruct c as [c_ v ix p r | c_ v ix p]; simpl; now rewrite last_last.
Qed.

Lemma record_domains (cs : list Call) :
  paths_fit cs ->
  map p2_clk (poseidon2_builder (record hash cs)) = flat_map call_domains cs.
Proof.
  intros Hfit. rewrite (record_events hash cs Hfit), record_entries.
  clear Hfit. induction cs as [|c cs IH]; cbn [map flat_map].
  - reflexivity.
  - rewrite map_app, IH. f_equal. unfold entry_events.
    rewrite spec_replay_domains, entry_of_call_clk, entry_of_call_path.
    reflexivity.
Qed.

Lemma call_domains_range (c : Call) (x : Z) :
  0 <= call_clk c < 2 ^ 26 -> (length (call_path c) <= 64)%nat ->
  In x (call_domains c) ->
  64 * call_clk c <= x < 64 * call_clk c + 64.
Proof.
  intros Hc Hl Hin. unfold call_domains in Hin.
  apply in_map_iff in Hin. destruct Hin as (j & <- & Hj).
  apply in_seq in Hj. rewrite add32_level by lia.
  unfold shl32. rewrite Z.shiftl_mul_pow2, to_uint32_small by lia. lia.
Qed.

Lemma call_domains_NoDup (c : Call) :
  (length (call_path c) <= 64)%nat -> NoDup (call_domains c).
Proof.
  intros Hl. unfold call_domains.
  apply NoDup_map_NoDup_ForallPairs; [|apply seq_NoDup].
  intros j j' Hj Hj' H. apply in_seq in Hj, Hj'.
  rewrite !add32_level in H by lia. lia.
Qed.

(** X5.  Calls made at pairwise distinct clocks below [2^26], on paths of at
    most 64 siblings, never give the hash gadget the same domain identifier
    twice: the identifiers of all invocations the builder has made are
    pairwise distinct. *)
Theorem domain_identifiers_are_unique (calls : list Call) :
  NoDup (map call_clk calls) ->
  Forall (fun c => 0 <= call_clk c < 2 ^ 26 /\
                   (length (call_path c) <= 64)%nat) calls ->
  NoDup (map p2_clk (poseidon2_builder (record hash calls))).
Proof.
  intros Hclk Hall.
  assert (Hfit : paths_fit calls).
  { unfold paths_fit. apply Forall_impl with (2 := Hall).
    intros c (_ & Hl). unfold fits_uint32. lia. }
  rewrite (record_domains calls Hfit). clear Hfit.
  induction Hall as [|c cs (Hc & Hl) Hall IH]; cbn [flat_map].
  - constructor.
  - cbn [map] in Hclk. inversion Hclk as [|? ? Hnotin Hrest]; subst.
    apply NoDup_app.
    + now apply call_domains_NoDup.
    + now apply IH.
    + intros x Hx Hx'. apply in_flat_map in Hx'.
      destruct Hx' as (c' & Hc' & Hx').
      rewrite Forall_forall in Hall. destruct (Hall c' Hc') as (Hcc & Hll).
      apply call_domains_range in Hx, Hx'; auto.
      apply Hnotin. replace (call_clk c) with (call_clk c') by lia.
      now apply in_map.
Qed.

(** ** The intermediate hashes of a logged entry *)

Lemma entry_of_call_replay (b : AvmMerkleTreeTraceBuilder) (c : Call) :
  fits_uint32 (call_path c) ->
  let e := entry_of_call hash b c in
  path_values e =
  snd (fst (spec_replay hash (clk e) 0 (leaf_value e) (leaf_index e)
              (path e))).
Proof.
  intros Hfit. unfold entry_of_call.
  destruct c as [c_ v ix p r | c_ v ix p]; cbn [call_path] in Hfit;
    cbn [do_call]; unfold check_membership, update_leaf_index;
    rewrite (compute_root_from_path_replay hash b c_ v ix p Hfit);
    destruct (spec_replay hash c_ 0 v ix p) as [[r0 vs] es] eqn:E;
    cbn; rewrite last_last; cbn; now rewrite E.
Qed.

Lemma logged_entry_replay (calls : list Call) (e : MerkleEntry) :
  paths_fit calls ->
  In e (merkle_check_trace (record hash calls)) ->
  path_values e =
  snd (fst (spec_replay hash (clk e) 0 (leaf_value e) (leaf_index e)
              (path e))).
Proof.
  intros Hfit. rewrite record_entries. intros Hin.
  apply in_map_iff in Hin. destruct Hin as (c & <- & Hc).
  apply entry_of_call_replay.
  unfold paths_fit in Hfit. rewrite Forall_forall in Hfit. now apply Hfit.
Qed.

(** The invocation of level [i] of a replay: its output is the [i]-th
    intermediate hash, its operands the value below and the sibling. *)
Lemma spec_replay_event (c : Z) (d : FF) (p : list FF) :
  forall (lvl : Z) (v : FF) (ix : Z) (i : nat) (ev : Poseidon2Event),
  nth_error (snd (spec_replay hash c lvl v ix p)) i = Some ev ->
  let values := snd (fst (spec_replay hash c lvl v ix p)) in
  let below := match i with O => v | S j => nth j values d end in
  p2_output ev = nth i values d /\
  p2_left ev =
    (if Z.shiftr ix (Z.of_nat i) mod 2 =? 0 then below else nth i p d) /\
  p2_right ev =
    (if Z.shiftr ix (Z.of_nat i) mod 2 =? 0 then nth i p d else below).
Proof.
  induction p as [|s p IH]; intros lvl v ix i ev H.
  - destruct i; discriminate.
  - cbn [spec_replay] in *.
    destruct (ix mod 2 =? 0) eqn:Hpar; cbv zeta beta iota in *;
      match goal with
      | |- context [spec_replay hash c (lvl + 1) ?x ?y p] =>
          specialize (IH (lvl + 1) x y);
          destruct (spec_replay hash c (lvl + 1) x y p) as [[r vs] es]
      end; cbn [fst snd] in *;
      (destruct i as [|i]; cbn [nth_error] in H;
       [ injection H as <-; cbn [nth p2_output p2_left p2_right Z.of_nat];
         rewrite Z.shiftr_0_r, Hpar; repeat split
       | specialize (IH i ev H); cbv zeta in IH;
         destruct IH as (Ho & Hl & Hr);
         rewrite Z.shiftr_shiftr in Hl, Hr by lia;
         replace (1 + Z.of_nat i) with (Z.of_nat (S i)) in Hl, Hr by lia;
         cbn [nth]; split; [exact Ho|];
         destruct i; split; assumption ]).
Qed.

End RecordingFurther.

(** * Further properties of the row compiler *)

Section FinalizingFurther.

Context {F : FieldElement} {L : FieldLaws F}.
Variable hash : FF -> FF -> Z -> FF.

(** ** Rows and hash invocations *)

(** X6.  The rows and the invocations of the hash gadget go together: the
    builder has made as many invocations as [finalize] asks rows for, and the
    row at position [k] carries, as its left and right hash and its output
    hash, the two operands and the result of the [k]-th invocation.  (The
    paths are of a size that fits [uint32_t].) *)
Theorem row_matches_hash_invocation (calls : list Call) :
  paths_fit calls ->
  length (poseidon2_builder (record hash calls)) =
    demand (merkle_check_trace (record hash calls)) /\
  forall (t : list AvmFullRow) (k : nat) (e : MerkleEntry) (i : nat)
         (dest row : AvmFullRow),
    written_row hash calls t k e i dest row ->
    exists ev : Poseidon2Event,
      nth_error (poseidon2_builder (record hash calls)) k = Some ev /\
      p2_left ev = merkle_tree_left_hash row /\
      p2_right ev = merkle_tree_right_hash row /\
      p2_output ev = merkle_tree_output_hash row.
Proof.
  intros Hfit.
  pose proof (record_paths_fit hash calls Hfit) as Hfits.
  split.
  - rewrite (record_events hash calls Hfit).
    set (es := merkle_check_trace (record hash calls)) in *.
    clearbody es. unfold demand.
    induction Hfits as [|e es He _ IH]; cbn [flat_map map list_sum].
    + reflexivity.
    + rewrite length_app, IH, entry_events_length.
      now rewrite (depth_fits e He).
  - intros t k e i dest row Hw.
    destruct (written_row_level hash calls t k e i dest row Hfit Hw)
      as (Hrow & Hi & Hfe & (Hlen & _)).
    destruct (written_row_is_level_row hash calls t k e i dest row Hw)
      as (_ & _ & Hin).
    destruct Hw as (Hlv & _ & _).
    rewrite (record_events hash calls Hfit).
    rewrite (events_at_level hash _ Hfits _ _ _ Hlv).
    destruct (nth_error (entry_events hash e) i) as [ev|] eqn:Hev;
      [|apply nth_error_None in Hev;
        rewrite entry_events_length in Hev; lia].
    exists ev. split; [reflexivity|].
    unfold entry_events in Hev.
    apply (spec_replay_event hash (clk e) FF_zero) in Hev. cbv zeta in Hev.
    rewrite <- (logged_entry_replay hash calls e Hfit Hin) in Hev.
    destruct Hev as (Ho & Hl & Hr).
    unfold level_row in Hrow. apply fill_row_fields in Hrow.
    cbv zeta in Hrow.
    destruct Hrow as (_ & _ & _ & _ & _ & Rleft & Rright & Rout & _).
    unfold leaf_index_at_level, leaf_value_at_level, is_even, vec_at in *.
    rewrite Nat2Z.id in *.
    rewrite Rleft, Rright, Rout, Ho, Hl, Hr.
    destruct i as [|j]; [|rewrite Nat2Z.id]; repeat split.
Qed.

(** ** The rows of one block *)

Lemma levels_next (es : list MerkleEntry) :
  forall (k : nat) (e : MerkleEntry) (i : nat),
  nth_error (levels es) k = Some (e, i) -> (S i < depth e)%nat ->
  nth_error (levels es) (S k) = Some (e, S i).
Proof.
  induction es as [|e0 es IH]; intros k e i H Hi.
  - destruct k; discriminate.
  - destruct (le_lt_dec (depth e0) k) as [Hge | Hlt].
    + rewrite levels_tail in H by exact Hge.
      rewrite levels_tail by lia.
      replace (S k - depth e0)%nat with (S (k - depth e0)) by lia.
      now apply IH.
    + rewrite levels_head in H by exact Hlt. injection H as <- <-.
      now apply levels_head.
Qed.

(** X7.  Inside the block of an entry the rows follow one another: when
    the row at position [k] is the row of a level that is not the last one
    of its entry, the row at position [k + 1] is the row of the next level
    of the same entry, its leaf value is the output hash of the row before,
    and it carries the same expected root. *)
Theorem rows_chain (calls : list Call) (t : list AvmFullRow) (k : nat)
  (e e' : MerkleEntry) (i i' : nat) (dest row dest' row' : AvmFullRow) :
  written_row hash calls t k e i dest row ->
  (S i < depth e)%nat ->
  written_row hash calls t (S k) e' i' dest' row' ->
  e' = e /\ i' = S i /\
  merkle_tree_leaf_value row' = merkle_tree_output_hash row /\
  merkle_tree_expected_tree_root row' = merkle_tree_expected_tree_root row.
Proof.
  intros Hw Hi Hw'.
  destruct (written_row_is_level_row hash calls t k e i dest row Hw)
    as (Hrow & _ & _).
  destruct (written_row_is_level_row hash calls t (S k) e' i' dest' row'
              Hw') as (Hrow' & _ & _).
  destruct Hw as (Hlv & _ & _). destruct Hw' as (Hlv' & _ & _).
  rewrite (levels_next _ _ _ _ Hlv Hi) in Hlv'. injection Hlv' as <- <-.
  unfold level_row in Hrow, Hrow'.
  apply fill_row_fields in Hrow, Hrow'. cbv zeta in Hrow, Hrow'.
  destruct Hrow as (_ & _ & _ & Rroot & _ & _ & _ & Rout & _).
  destruct Hrow' as (_ & _ & Rval' & Rroot' & _).
  cbn [leaf_value_at_level] in Rval'.
  repeat split; auto; congruence.
Qed.

(** ** Running [finalize] again *)

Lemma level_row_again (e : MerkleEntry) (i : nat) (dest r : AvmFullRow) :
  level_row e i dest = Some r -> level_row e i r = Some r.
Proof.
  unfold level_row, fill_row.
  destruct (inverse_or_zero_uint _) as [y1|]; [|discriminate].
  destruct (inverse_or_zero _) as [y2|]; [|discriminate].
  intros H. injection H as <-. cbn.
  destruct (Z.of_nat i =? to_uint32 (size32 (path e) - 1)); reflexivity.
Qed.

Lemma finalize_result (b : AvmMerkleTreeTraceBuilder) (t : list AvmFullRow) :
  finalize b t =
  if le_lt_dec (demand (merkle_check_trace b)) (length t)
  then Completed (table_of (finalize b t)) (demand (merkle_check_trace b))
  else Faulted out_of_range (table_of (finalize b t)).
Proof.
  destruct (finalize_spec b t) as (_ & _ & _ & H4 & H5).
  destruct (le_lt_dec (demand (merkle_check_trace b)) (length t))
    as [Hroom | Hshort].
  - exact (H4 Hroom).
  - destruct (H5 Hshort) as (t' & Ht'). now rewrite Ht'.
Qed.

(** X8.  [finalize] is idempotent: run again on the table it has left, with
    the same log, it leaves this table as it is and ends the same way. *)
Theorem finalize_again (b : AvmMerkleTreeTraceBuilder)
  (t : list AvmFullRow) :
  finalize b (table_of (finalize b t)) = finalize b t.
Proof.
  set (t' := table_of (finalize b t)).
  destruct (finalize_spec b t) as (H1 & H2 & H3 & _).
  destruct (finalize_spec b t') as (G1 & G2 & G3 & _).
  fold t' in H1, H2, H3.
  assert (Hsame : table_of (finalize b t') = t').
  { apply nth_error_ext. intros k.
    destruct (nth_error (levels (merkle_check_trace b)) k) as [[e i]|]
      eqn:Hlv.
    - destruct (nth_error t k) as [dest|] eqn:Hd.
      + destruct (H3 k e i dest Hlv Hd) as (r & Hr & Hn).
        destruct (G3 k e i r Hlv Hn) as (r' & Hr' & Hn').
        rewrite (level_row_again _ _ _ _ Hr) in Hr'. injection Hr' as <-.
        now rewrite Hn, Hn'.
      + apply nth_error_None in Hd.
        assert (nth_error t' k = None) by (apply nth_error_None; lia).
        assert (nth_error (table_of (finalize b t')) k = None)
          by (apply nth_error_None; lia).
        congruence.
    - apply nth_error_None in Hlv. rewrite levels_length in Hlv.
      now apply G2. }
  rewrite (finalize_result b t'), (finalize_result b t).
  fold t'. rewrite Hsame, H1.
  destruct (le_lt_dec (demand (merkle_check_trace b)) (length t));
    reflexivity.
Qed.

(** ** A table that is too short *)


(** ** Calls that come later *)

(** X10.  Later calls do not disturb the rows of earlier ones: the rows
    below the demand of the calls made so far are the same in the table
    [finalize] leaves, whatever calls follow before [finalize] is run. *)
Theorem later_calls_keep_earlier_rows (calls more : list Call)
  (t : list AvmFullRow) (k : nat) :
  (k < demand (merkle_check_trace (record hash calls)))%nat ->
  nth_error (table_of (finalize (record hash (calls ++ more)) t)) k =
  nth_error (table_of (finalize (record hash calls) t)) k.
Proof.
  intros Hk.
  destruct (finalize_spec (record hash calls) t) as (H1 & _ & H3 & _).
  destruct (finalize_spec (record hash (calls ++ more)) t)
    as (G1 & _ & G3 & _).
  rewrite <- levels_length in Hk.
  destruct (nth_error (levels (merkle_check_trace (record hash calls))) k)
    as [[e i]|] eqn:Hlv; [|apply nth_error_None in Hlv; lia].
  assert (Hlv' : nth_error
            (levels (merkle_check_trace (record hash (calls ++ more)))) k =
            Some (e, i)).
  { rewrite record_entries, map_app, <- record_entries.
    unfold levels in *. rewrite flat_map_app, nth_error_app1; auto. }
  destruct (nth_error t k) as [dest|] eqn:Hd.
  - destruct (H3 k e i dest Hlv Hd) as (r & Hr & Hn).
    destruct (G3 k e i dest Hlv' Hd) as (r' & Hr' & Hn').
    congruence.
  - apply nth_error_None in Hd.
    transitivity (@None AvmFullRow); [|symmetry];
      apply nth_error_None; lia.
Qed.

(** ** The closing row of a block *)

Lemma nth_is_last {A : Type} (l : list A) :
  forall (i : nat) (d d' : A), length l = S i -> nth i l d = last l d'.
Proof.
  induction l as [|a l IH]; intros i d d' H; [discriminate|].
  destruct l as [|a' l].
  - cbn in H. injection H as <-. reflexivity.
  - destruct i as [|i]; [discriminate|].
    cbn [nth]. change (last (a :: a' :: l) d') with (last (a' :: l) d').
    apply IH. cbn in *. lia.
Qed.

(** X11.  On the row that closes the block of an entry the output hash is
    the root the path evaluator computed, and [diff_inv] is 0 exactly when
    the root of the entry is this computed root.  Hence for a membership
    entry the membership flag of the row is 1 exactly when [diff_inv] is 0,
    and for an update entry [diff_inv] and the membership flag are 0.  (The
    paths are of a size that fits [uint32_t].) *)
Theorem closing_row (calls : list Call) (t : list AvmFullRow) (k : nat)
  (e : MerkleEntry) (i : nat) (dest row : AvmFullRow) :
  paths_fit calls ->
  written_row hash calls t k e i dest row ->
  S i = length (path e) ->
  merkle_tree_output_hash row = computed_root e /\
  (merkle_tree_diff_inv row = FF_zero <-> root e = computed_root e) /\
  (is_membership_op e = true ->
   (merkle_tree_is_member row = FF_one <->
    merkle_tree_diff_inv row = FF_zero)) /\
  (is_update_op e = true ->
   merkle_tree_diff_inv row = FF_zero /\
   merkle_tree_is_member row = FF_zero).
Proof.
  intros Hfit Hw Hlast.
  destruct (written_row_level hash calls t k e i dest row Hfit Hw)
    as (Hrow & Hi & Hfe & (Hlen & _)).
  destruct (written_row_is_level_row hash calls t k e i dest row Hw)
    as (_ & _ & Hin).
  destruct (logged_entry_root hash calls e Hin) as (Hupd & Hmem).
  unfold level_row in Hrow. apply fill_row_fields in Hrow. cbv zeta in Hrow.
  destruct Hrow as (_ & _ & _ & _ & _ & _ & _ & Rout & _ & _ & _ & _ &
                    Rinv & _ & Rmem & _).
  rewrite (size32_fits _ Hfe) in Rmem. unfold fits_uint32 in Hfe.
  rewrite to_uint32_small in Rmem by lia.
  replace (Z.of_nat i =? Z.of_nat (length (path e)) - 1) with true in Rmem
    by (symmetry; apply Z.eqb_eq; lia).
  assert (Hout : merkle_tree_output_hash row = computed_root e).
  { rewrite Rout. unfold vec_at, computed_root. rewrite Nat2Z.id.
    apply nth_is_last. lia. }
  destruct (inverse_or_zero_total
              (FF_sub (vec_at FF_zero (path_values e) (Z.of_nat i))
                 (root e))) as (y & Hy & Hlaw).
  rewrite Hy in Rinv. injection Rinv as ->.
  rewrite <- Rout, Hout in Hlaw.
  assert (Hdiff : merkle_tree_diff_inv row = FF_zero <->
                  root e = computed_root e).
  { rewrite (indicator_law_zero_iff hash _ _ Hlaw), FF_sub_zero_iff.
    split; congruence. }
  split; [exact Hout|]. split; [exact Hdiff|]. split.
  - intros Hop. rewrite Hdiff, <- (Hmem Hop), Rmem.
    destruct (is_member e); cbn [FF_of_bool].
    + tauto.
    + split; [|discriminate]. intros H. symmetry in H.
      now apply FF_one_neq_zero in H.
  - intros Hop. destruct (Hupd Hop) as (Hm & Hr).
    split; [now apply Hdiff|]. now rewrite Rmem, Hm.
Qed.

(** ** A table of default rows *)

Lemma nth_error_repeat_some {A : Type} (a x : A) (n k : nat) :
  nth_error (repeat a n) k = Some x -> x = a.
Proof.
  revert k. induction n as [|n IH]; intros [|k] H; cbn in H;
    try discriminate.
  - now injection H.
  - now apply (IH k).
Qed.

(** X12.  On a table of default rows [finalize] marks its rows and nothing
    else: in the table it leaves, [sel_merkle_tree] is 1 exactly on the rows
    below the demand, and the latch is 1 exactly on the rows that close the
    block of an entry. *)
Theorem default_table_marks (b : AvmMerkleTreeTraceBuilder) (n k : nat)
  (row : AvmFullRow) :
  nth_error (table_of (finalize b (repeat empty_row n))) k = Some row ->
  (merkle_tree_sel_merkle_tree row = FF_one <->
   (k < demand (merkle_check_trace b))%nat) /\
  (merkle_tree_latch row = FF_one <->
   exists (e : MerkleEntry) (i : nat),
     nth_error (levels (merkle_check_trace b)) k = Some (e, i) /\
     S i = depth e).
Proof.
  intros Hrow.
  destruct (finalize_spec b (repeat empty_row n)) as (H1 & H2 & H3 & _).
  assert (Hk : (k < length (repeat (@empty_row F) n))%nat).
  { rewrite <- H1. apply nth_error_Some. congruence. }
  destruct (nth_error (repeat (@empty_row F) n) k) as [dest|] eqn:Hd;
    [|apply nth_error_None in Hd; lia].
  pose proof (nth_error_repeat_some _ _ _ _ Hd) as ->.
  assert (Hne : @FF_zero F <> FF_one)
    by (intros H; symmetry in H; now apply FF_one_neq_zero in H).
  destruct (nth_error (levels (merkle_check_trace b)) k) as [[e i]|]
    eqn:Hlv.
  - destruct (H3 k e i empty_row Hlv Hd) as (r & Hr & Hn).
    rewrite Hn in Hrow. injection Hrow as ->.
    assert (Hlt : (k < demand (merkle_check_trace b))%nat).
    { rewrite <- levels_length. apply nth_error_Some. congruence. }
    destruct (levels_in _ _ _ _ Hlv) as (_ & Hi).
    unfold level_row in Hr. apply fill_row_fields in Hr. cbv zeta in Hr.
    destruct Hr as (_ & _ & _ & _ & _ & _ & _ & _ & _ & _ & _ & Rsel & _ &
                    Rlatch & _).
    unfold depth in *.
    pose proof (to_uint32_range (Z.of_nat (length (path e)))) as Hrange.
    fold (size32 (path e)) in Hrange.
    rewrite to_uint32_small in Rlatch by lia.
    split; [tauto|]. rewrite Rlatch.
    destruct (Z.eqb_spec (Z.of_nat i) (size32 (path e) - 1))
      as [Heq | Hneq].
    + split; [|reflexivity]. intros _. exists e, i.
      split; [reflexivity|lia].
    + cbn [merkle_tree_latch empty_row].
      split; [intros Hz; contradiction|].
      intros (e' & i' & He' & Hi'). injection He' as <- <-. lia.
  - rewrite H2 in Hrow
      by (apply nth_error_None in Hlv; now rewrite levels_length in Hlv).
    rewrite Hd in Hrow. injection Hrow as <-.
    apply nth_error_None in Hlv. rewrite levels_length in Hlv.
    cbn [merkle_tree_sel_merkle_tree merkle_tree_latch empty_row].
    split; split; try (intros Hz; contradiction); try lia.
    intros (e' & i' & He' & _). discriminate.
Qed.

End FinalizingFurther.

(** ** The rationals satisfy the laws *)

Module QcFieldLaws.

Import QArith Qcanon QcField.

Lemma Q2Qc_inject_Z_nonzero (n : Z) :
  (n <> 0)%Z -> Q2Qc (inject_Z n) <> Q2Qc 0.
Proof.
  intros Hn H. apply (f_equal this) in H. cbn [this Q2Qc] in H.
  apply Qred_eq_iff in H. unfold Qeq in H. cbn in H. lia.
Qed.

Lemma Qc_field_laws : FieldLaws Qc_field.
Proof.
  constructor; cbn.
  - intros x y. split.
    + intros H. transitivity (x - y + y); [ring | rewrite H; ring].
    + intros ->. ring.
  - intros x. ring.
  - intros H. apply (f_equal this) in H. discriminate.
  - reflexivity.
  - intros n Hn. apply Q2Qc_inject_Z_nonzero. lia.
  - destruct (Qc_eq_dec (Q2Qc 0) (Q2Qc 0)); congruence.
  - intros x Hx. exists (/ x). split.
    + destruct (Qc_eq_dec x (Q2Qc 0)); congruence.
    + now apply Qcmult_inv_r.
Qed.

End QcFieldLaws.

(** ** The scenarios of the specification, and the claims at work *)

Module Scenarios.

Import QcField QcFieldLaws.

Lemma scenario_a_fits : paths_fit scenario_a.
Proof. repeat constructor. Defined.

Lemma scenario_b_fits : paths_fit scenario_b.
Proof. repeat constructor. Defined.

Lemma two_calls_fit : paths_fit two_calls.
Proof. repeat constructor. Defined.

(** Scenario A: the check succeeds, two rows are written, and the second
    one carries the latch and the membership flag. *)
Example scenario_a_runs :
  fst (check_membership toy_hash empty_builder 5 (q 7) 1 [q 3; q 4] (q (-6)))
    = true /\
  map path_values (merkle_check_trace (record toy_hash scenario_a))
    = [[q (-1); q (-6)]] /\
  (exists t',
     finalize (record toy_hash scenario_a) [empty_row; empty_row]
       = Completed t' 2) /\
  merkle_tree_latch (row_of scenario_a [empty_row; empty_row] 1) = FF_one /\
  merkle_tree_is_member (row_of scenario_a [empty_row; empty_row] 1)
    = FF_one.
Proof.
  split; [vm_compute; reflexivity|].
  split; [vm_compute; reflexivity|].
  split; [eexists; vm_compute; reflexivity|].
  split; vm_compute; reflexivity.
Qed.

(** Scenario B: the check fails, both rows carry the expected root 100
    and the second one the inverse of [h1 - 100]. *)
Example scenario_b_runs :
  fst (check_membership toy_hash empty_builder 5 (q 7) 1 [q 3; q 4] (q 100))
    = false /\
  merkle_tree_expected_tree_root (row_of scenario_b [empty_row; empty_row] 0)
    = q 100 /\
  merkle_tree_expected_tree_root (row_of scenario_b [empty_row; empty_row] 1)
    = q 100 /\
  FF_mul (FF_sub (q (-6)) (q 100))
    (merkle_tree_diff_inv (row_of scenario_b [empty_row; empty_row] 1))
    = FF_one.
Proof.
  split; [vm_compute; reflexivity|].
  split; [vm_compute; reflexivity|].
  split; [vm_compute; reflexivity|].
  apply Qcanon.Qc_is_canon. vm_compute. reflexivity.
Qed.

(** *** The claims applied *)

Lemma compute_root_from_path_computes_spec_replay_witness :
  fits_uint32 [q 3; q 4] /\
  root (fst (compute_root_from_path toy_hash empty_builder 5 (q 7) 1
               [q 3; q 4])) =
  fst (fst (spec_replay toy_hash 5 0 (q 7) 1 [q 3; q 4])).
Proof.
  assert (H : fits_uint32 [q 3; q 4]) by reflexivity.
  split; [exact H|].
  rewrite (proj1 (compute_root_from_path_computes_spec_replay
                    (F := Qc_field) toy_hash empty_builder 5 (q 7) 1
                    [q 3; q 4] H)).
  reflexivity.
Defined.

Lemma log_invariant_witness :
  paths_fit two_calls /\
  Forall entry_invariant (merkle_check_trace (record toy_hash two_calls)).
Proof.
  split; [exact two_calls_fit|].
  exact (proj1 (log_invariant (F := Qc_field) toy_hash two_calls
                  two_calls_fit)).
Defined.


Lemma finalize_faults_iff_short_witness :
  FieldLaws Qc_field /\
  paths_fit two_calls /\
  exists t',
    finalize (record toy_hash two_calls) (repeat empty_row 4) =
    Faulted out_of_range t'.
Proof.
  split; [exact Qc_field_laws|].
  split; [exact two_calls_fit|].
  apply (finalize_faults_iff_short (F := Qc_field) (L := Qc_field_laws)
           toy_hash two_calls (repeat empty_row 4) two_calls_fit).
  vm_compute. repeat constructor.
Defined.

Lemma scenario_a_last_row :
  written_row toy_hash scenario_a [empty_row; empty_row] 1
    (entry_of scenario_a) 1 empty_row
    (row_of scenario_a [empty_row; empty_row] 1).
Proof. repeat split; vm_compute; reflexivity. Defined.

Lemma scenario_b_last_row :
  written_row toy_hash scenario_b [empty_row; empty_row] 1
    (entry_of scenario_b) 1 empty_row
    (row_of scenario_b [empty_row; empty_row] 1).
Proof. repeat split; vm_compute; reflexivity. Defined.

Lemma written_row_columns_witness :
  FieldLaws Qc_field /\
  paths_fit scenario_a /\
  written_row toy_hash scenario_a [empty_row; empty_row] 1
    (entry_of scenario_a) 1 empty_row
    (row_of scenario_a [empty_row; empty_row] 1) /\
  merkle_tree_clk (row_of scenario_a [empty_row; empty_row] 1) =
  FF_of_uint (shl32 5 6 + 1).
Proof.
  split; [exact Qc_field_laws|].
  split; [exact scenario_a_fits|]. split; [exact scenario_a_last_row|].
  exact (proj1 (written_row_columns (F := Qc_field) (L := Qc_field_laws)
                  toy_hash scenario_a [empty_row; empty_row] 1
                  (entry_of scenario_a) 1 empty_row
                  (row_of scenario_a [empty_row; empty_row] 1)
                  scenario_a_fits scenario_a_last_row)).
Defined.

Lemma inverse_columns_law_witness :
  FieldLaws Qc_field /\
  written_row toy_hash scenario_b [empty_row; empty_row] 1
    (entry_of scenario_b) 1 empty_row
    (row_of scenario_b [empty_row; empty_row] 1) /\
  indicator_law
    (FF_sub
       (merkle_tree_output_hash (row_of scenario_b [empty_row; empty_row] 1))
       (merkle_tree_expected_tree_root
          (row_of scenario_b [empty_row; empty_row] 1)))
    (merkle_tree_diff_inv (row_of scenario_b [empty_row; empty_row] 1)).
Proof.
  split; [exact Qc_field_laws|]. split; [exact scenario_b_last_row|].
  apply (proj2 (inverse_columns_law (F := Qc_field) (L := Qc_field_laws)
                  toy_hash scenario_b [empty_row; empty_row])
           1%nat (entry_of scenario_b) 1%nat empty_row
           (row_of scenario_b [empty_row; empty_row] 1)
           scenario_b_last_row).
Defined.

Lemma latch_columns_witness :
  FieldLaws Qc_field /\
  paths_fit scenario_a /\
  written_row toy_hash scenario_a [empty_row; empty_row] 1
    (entry_of scenario_a) 1 empty_row
    (row_of scenario_a [empty_row; empty_row] 1) /\
  merkle_tree_latch (row_of scenario_a [empty_row; empty_row] 1) = FF_one.
Proof.
  split; [exact Qc_field_laws|].
  split; [exact scenario_a_fits|]. split; [exact scenario_a_last_row|].
  apply (latch_columns (F := Qc_field) (L := Qc_field_laws) toy_hash
           scenario_a [empty_row; empty_row] 1 (entry_of scenario_a) 1
           empty_row (row_of scenario_a [empty_row; empty_row] 1)
           scenario_a_fits scenario_a_last_row).
  reflexivity.
Defined.

(** *** Where the specification and the code part *)

(** Level 0 of a two-level entry, written over a row whose latch was 1:
    the latch of the row is still 1 although the row is not the last one of
    the block. *)
Lemma latch_kept_below_last_level :
  written_row toy_hash scenario_a [latched_row; empty_row] 0
    (entry_of scenario_a) 0 latched_row
    (row_of scenario_a [latched_row; empty_row] 0) /\
  length (path (entry_of scenario_a)) = 2%nat /\
  merkle_tree_latch (row_of scenario_a [latched_row; empty_row] 0) =
    FF_one /\
  merkle_tree_latch (row_of scenario_a [latched_row; empty_row] 0) <>
    FF_zero.
Proof.
  split; [repeat split; vm_compute; reflexivity|].
  split; [reflexivity|].
  split; [vm_compute; reflexivity|].
  intros H. apply (f_equal Qcanon.this) in H. vm_compute in H. discriminate.
Qed.

(** *** The further properties applied *)

Lemma scenario_a_first_row :
  written_row toy_hash scenario_a [empty_row; empty_row] 0
    (entry_of scenario_a) 0 empty_row
    (row_of scenario_a [empty_row; empty_row] 0).
Proof. repeat split; vm_compute; reflexivity. Defined.

Lemma high_index_bits_are_ignored_witness :
  fits_uint32 [q 3; q 4] /\
  1 mod 2 ^ Z.of_nat (length [q 3; q 4]) =
  5 mod 2 ^ Z.of_nat (length [q 3; q 4]) /\
  root (fst (compute_root_from_path toy_hash empty_builder 5 (q 7) 1
               [q 3; q 4])) =
  root (fst (compute_root_from_path toy_hash empty_builder 5 (q 7) 5
               [q 3; q 4])).
Proof.
  assert (H : fits_uint32 [q 3; q 4]) by reflexivity.
  assert (Hm : 1 mod 2 ^ Z.of_nat (length [q 3; q 4]) =
               5 mod 2 ^ Z.of_nat (length [q 3; q 4])) by reflexivity.
  split; [exact H|]. split; [exact Hm|].
  exact (proj1 (high_index_bits_are_ignored (F := Qc_field) toy_hash
                  empty_builder 5 (q 7) 1 5 [q 3; q 4] (q 0) H Hm)).
Defined.

Lemma high_clock_bits_are_ignored_witness :
  5 mod 2 ^ 26 = 67108869 mod 2 ^ 26 /\
  poseidon2_builder
    (snd (compute_root_from_path toy_hash empty_builder 5 (q 7) 1
            [q 3; q 4])) =
  poseidon2_builder
    (snd (compute_root_from_path toy_hash empty_builder 67108869 (q 7) 1
            [q 3; q 4])).
Proof.
  assert (H : 5 mod 2 ^ 26 = 67108869 mod 2 ^ 26) by reflexivity.
  split; [exact H|].
  apply (high_clock_bits_are_ignored (F := Qc_field) toy_hash empty_builder
           5 67108869 (q 7) 1 [q 3; q 4] H).
Defined.

Lemma one_more_sibling_witness :
  fits_uint32 ([q 3] ++ [q 4]) /\
  path_values (fst (compute_root_from_path toy_hash empty_builder 5 (q 7) 1
                      ([q 3] ++ [q 4]))) =
  path_values (fst (compute_root_from_path toy_hash empty_builder 5 (q 7) 1
                      [q 3])) ++
  [root (fst (compute_root_from_path toy_hash empty_builder 5 (q 7) 1
                ([q 3] ++ [q 4])))].
Proof.
  assert (H : fits_uint32 ([q 3] ++ [q 4])) by reflexivity.
  split; [exact H|].
  exact (proj1 (one_more_sibling (F := Qc_field) toy_hash empty_builder 5
                  (q 7) 1 [q 3] (q 4) H)).
Defined.

Lemma two_calls_clocks :
  NoDup (map call_clk two_calls) /\
  Forall (fun c => 0 <= call_clk c < 2 ^ 26 /\
                   (length (call_path c) <= 64)%nat) two_calls.
Proof.
  split.
  - repeat constructor; cbn; intros H; repeat destruct H as [H | H];
      try discriminate; exact H.
  - repeat constructor; cbn; try discriminate; lia.
Defined.

Lemma domain_identifiers_are_unique_witness :
  NoDup (map call_clk two_calls) /\
  Forall (fun c => 0 <= call_clk c < 2 ^ 26 /\
                   (length (call_path c) <= 64)%nat) two_calls /\
  NoDup (map p2_clk (poseidon2_builder (record toy_hash two_calls))).
Proof.
  split; [exact (proj1 two_calls_clocks)|].
  split; [exact (proj2 two_calls_clocks)|].
  exact (domain_identifiers_are_unique (F := Qc_field) toy_hash two_calls
           (proj1 two_calls_clocks) (proj2 two_calls_clocks)).
Defined.

Lemma row_matches_hash_invocation_witness :
  FieldLaws Qc_field /\
  paths_fit two_calls /\
  length (poseidon2_builder (record toy_hash two_calls)) = 5%nat.
Proof.
  split; [exact Qc_field_laws|]. split; [exact two_calls_fit|].
  exact (proj1 (row_matches_hash_invocation (F := Qc_field)
                  (L := Qc_field_laws) toy_hash two_calls two_calls_fit)).
Defined.

Lemma rows_chain_witness :
  FieldLaws Qc_field /\
  written_row toy_hash scenario_a [empty_row; empty_row] 0
    (entry_of scenario_a) 0 empty_row
    (row_of scenario_a [empty_row; empty_row] 0) /\
  (1 < depth (entry_of scenario_a))%nat /\
  written_row toy_hash scenario_a [empty_row; empty_row] 1
    (entry_of scenario_a) 1 empty_row
    (row_of scenario_a [empty_row; empty_row] 1) /\
  merkle_tree_leaf_value (row_of scenario_a [empty_row; empty_row] 1) =
  merkle_tree_output_hash (row_of scenario_a [empty_row; empty_row] 0).
Proof.
  assert (Hd : (1 < depth (entry_of scenario_a))%nat)
    by (vm_compute; repeat constructor).
  split; [exact Qc_field_laws|]. split; [exact scenario_a_first_row|].
  split; [exact Hd|]. split; [exact scenario_a_last_row|].
  apply (rows_chain (F := Qc_field) (L := Qc_field_laws) toy_hash
           scenario_a [empty_row; empty_row] 0 (entry_of scenario_a)
           (entry_of scenario_a) 0 1 empty_row
           (row_of scenario_a [empty_row; empty_row] 0) empty_row
           (row_of scenario_a [empty_row; empty_row] 1)
           scenario_a_first_row Hd scenario_a_last_row).
Defined.

Lemma finalize_again_witness :
  FieldLaws Qc_field /\
  finalize (record toy_hash two_calls)
    (table_of (finalize (record toy_hash two_calls)
                 (repeat empty_row 6))) =
  finalize (record toy_hash two_calls) (repeat empty_row 6).
Proof.
  split; [exact Qc_field_laws|].
  exact (finalize_again (F := Qc_field) (L := Qc_field_laws)
           (record (F := Qc_field) toy_hash two_calls)
           (repeat empty_row 6)).
Defined.


Lemma later_calls_keep_earlier_rows_witness :
  FieldLaws Qc_field /\
  (1 < demand (merkle_check_trace (record toy_hash scenario_a)))%nat /\
  nth_error
    (table_of (finalize (record toy_hash (scenario_a ++ scenario_b))
                 (repeat empty_row 4))) 1 =
  nth_error
    (table_of (finalize (record toy_hash scenario_a)
                 (repeat empty_row 4))) 1.
Proof.
  assert (Hk : (1 < demand (merkle_check_trace
                              (record toy_hash scenario_a)))%nat)
    by (vm_compute; repeat constructor).
  split; [exact Qc_field_laws|]. split; [exact Hk|].
  exact (later_calls_keep_earlier_rows (F := Qc_field)
           (L := Qc_field_laws) toy_hash scenario_a scenario_b
           (repeat empty_row 4) 1 Hk).
Defined.

Lemma closing_row_witness :
  FieldLaws Qc_field /\
  paths_fit scenario_b /\
  written_row toy_hash scenario_b [empty_row; empty_row] 1
    (entry_of scenario_b) 1 empty_row
    (row_of scenario_b [empty_row; empty_row] 1) /\
  2%nat = length (path (entry_of scenario_b)) /\
  merkle_tree_output_hash (row_of scenario_b [empty_row; empty_row] 1) =
  computed_root (entry_of scenario_b).
Proof.
  assert (Hl : 2%nat = length (path (entry_of scenario_b)))
    by reflexivity.
  split; [exact Qc_field_laws|]. split; [exact scenario_b_fits|].
  split; [exact scenario_b_last_row|]. split; [exact Hl|].
  exact (proj1 (closing_row (F := Qc_field) (L := Qc_field_laws) toy_hash
                  scenario_b [empty_row; empty_row] 1 (entry_of scenario_b)
                  1 empty_row (row_of scenario_b [empty_row; empty_row] 1)
                  scenario_b_fits scenario_b_last_row Hl)).
Defined.

Lemma default_table_marks_witness :
  FieldLaws Qc_field /\
  nth_error
    (table_of (finalize (record toy_hash scenario_a)
                 (repeat empty_row 3))) 2 =
  Some (row_of scenario_a (repeat empty_row 3) 2) /\
  (merkle_tree_sel_merkle_tree (row_of scenario_a (repeat empty_row 3) 2) =
   FF_one <->
   (2 < demand (merkle_check_trace (record toy_hash scenario_a)))%nat).
Proof.
  assert (Hr : nth_error
                 (table_of (finalize (record toy_hash scenario_a)
                              (repeat empty_row 3))) 2 =
               Some (row_of scenario_a (repeat empty_row 3) 2))
    by (vm_compute; reflexivity).
  split; [exact Qc_field_laws|]. split; [exact Hr|].
  exact (proj1 (default_table_marks (F := Qc_field) (L := Qc_field_laws)
                  (record (F := Qc_field) toy_hash scenario_a) 3 2
                  (row_of scenario_a (repeat empty_row 3) 2) Hr)).
Defined.

End Scenarios.
